(** * mail-exchange: the processing pipeline of [src/index.ts]

    A shallow embedding of the forwarding pipeline (duplicate check, sender
    allow-list, rule matching, per-recipient delivery with retry, outcome
    aggregation, bounded task history) and the properties the specification
    states about it.

    Conventions of the model:
    - a JavaScript string is a [string]: a sequence of 8-bit code units
      (the code points U+0000..U+00FF);
    - a JavaScript integer-valued number is a [Z]; a value of [retryCount]
      that is not an integer is outside the model;
    - [undefined]/[null] is [None];
    - the mutable globals [forwardedIds], [tasks], [taskId] and everything the
      program does to the outside world (transport sends, timers, the clock,
      the random generator, the console, the log file and the id file) live
      in an explicit state that every operation threads through;
    - the environment is an arbitrary oracle: it answers each request
      knowing the whole history, and it picks the order in which the
      concurrent sends of one message make progress;
    - writing to the console and appending to a file always succeed;
    - one message is processed at a time.

    The two copies of the pipeline in the repository differ only in the log
    filter and in the IMAP listener; the functions below are the same in
    both. *)

From Stdlib Require Import ZArith Ascii String Sorted.
From stdpp Require Import base decidable option list strings gmap pretty.

Local Open Scope string_scope.
Local Open Scope Z_scope.

(** ** JavaScript string primitives *)

Module JS.

(** [c.toLowerCase()] on one code unit of the range U+0000..U+00FF:
    A-Z, and the Latin-1 capitals U+00C0..U+00DE except the
    multiplication sign U+00D7, move up by 32. *)
Definition lowerChar (c : ascii) : ascii :=
  let n := N_of_ascii c in
  if ((65 <=? n) && (n <=? 90)
      || (192 <=? n) && (n <=? 222) && negb (n =? 215))%N
  then ascii_of_N (n + 32)
  else c.

(** [s.toLowerCase()] *)
Fixpoint toLowerCase (s : string) : string :=
  match s with
  | EmptyString => EmptyString
  | String c s' => String (lowerChar c) (toLowerCase s')
  end.

(** [s.startsWith(t)] *)
Fixpoint startsWith (s t : string) {struct t} : bool :=
  match t, s with
  | EmptyString, _ => true
  | String _ _, EmptyString => false
  | String c t', String d s' => bool_decide (c = d) && startsWith s' t'
  end.

(** [s.includes(t)]: [t] occurs in [s] at some offset. *)
Fixpoint includes (s t : string) : bool :=
  startsWith s t
  || match s with
     | EmptyString => false
     | String _ s' => includes s' t
     end.

(** Truthiness of an optional string: [undefined] and the empty string are
    falsy. [truthy o] keeps a value only when JavaScript would. *)
Definition truthy (o : option string) : option string :=
  match o with
  | Some EmptyString => None
  | _ => o
  end.

(** [a || b] on optional strings. *)
Definition or_else (a b : option string) : option string :=
  match truthy a with
  | Some s => Some s
  | None => b
  end.

(** [a || d] with a string default. *)
Definition or_default (a : option string) (d : string) : string :=
  default d (truthy a).

(** A template literal renders an absent value as the word undefined. *)
Definition render (o : option string) : string :=
  default "undefined" o.

End JS.

(** The mathematical notion the specification uses: [t] is a substring of
    [s]. *)
Definition substring_of (t s : string) : Prop :=
  ∃ pre post, s = pre +:+ t +:+ post.

(** ** Data model *)

(** [interface ForwardRule] *)
Record ForwardRule := mkRule {
  tag : string;
  recipients : list string;
}.

(** [interface Config]: the fields the pipeline reads.  [smtp_auth_user] is
    [config.smtp.auth.user]. *)
Record Config := mkConfig {
  smtp_auth_user : string;
  rules : list ForwardRule;
  forwardPrefix : option string;
  allowedSenders : option (list string);
  retryCount : option Z;
}.

Section Matching.

Variable config : Config.

(** [function matchRule]: the loop over [config.rules], as a recursion on
    the rules that are still to be tried. *)
Fixpoint matchRule_from (rs : list ForwardRule) (lowerSubject : string)
  : option ForwardRule :=
  match rs with
  | [] => None
  | rule :: rest =>
      if JS.includes lowerSubject (JS.toLowerCase (tag rule))
      then Some rule
      else matchRule_from rest lowerSubject
  end.

Definition matchRule (subject : string) : option ForwardRule :=
  let lowerSubject := JS.toLowerCase subject in
  matchRule_from (rules config) lowerSubject.

(** [function isSenderAllowed] *)
Definition isSenderAllowed (email : string) : bool :=
  match allowedSenders config with
  | None => true
  | Some [] => true
  | Some senders =>
      let addr := JS.toLowerCase email in
      existsb (λ s, JS.includes addr (JS.toLowerCase s)) senders
  end.

End Matching.

(** [interface RecipientResult], with the [attempts] field that
    [sendToRecipient] adds. *)
Record RecipientResult := mkResult {
  email : string;
  success : bool;
  error : option string;
  attempts : Z;
}.

(** [interface ReplyData] *)
Record ReplyData := mkReplyData {
  rd_subject : string;
  rd_results : list RecipientResult;
  rd_duration : Z;
  rd_timestamp : string;
}.

Inductive Status := success_status | failed_status.

(** [interface ForwardTask] *)
Record ForwardTask := mkTask {
  task_id : Z;
  timestamp : string;
  task_subject : string;
  task_from : string;
  matchedTag : string;
  task_recipients : list string;
  status : Status;
  task_error : option string;
}.

(** The parts of mailparser's [ParsedMail] that the pipeline reads. *)
Record EmailAddress := mkAddress {
  address : option string;
  name : string;
}.

Record AddressObject := mkAddressObject {
  value : list EmailAddress;
  text : string;
}.

Record Attachment := mkAttachment {
  filename : option string;
  content : string;
  contentType : string;
}.

Record ParsedMail := mkMail {
  messageId : option string;
  headers : option (gmap string string);
  mail_subject : option string;
  mail_from : option AddressObject;
  mail_text : option string;
  mail_html : option string;
  attachments : option (list Attachment);
}.

(** The options object handed to [transporter.sendMail]. *)
Record OutMail := mkOutMail {
  om_from : string;
  om_to : string;
  om_subject : option string;
  om_text : string;
  om_html : option string;
  om_attachments : option (list Attachment);
}.

(** ** The outside world *)

(** What the program asks of its environment. *)
Inductive Event :=
| SendMail (m : OutMail)              (* await transporter.sendMail(m) *)
| SetTimeout (ms : Z)                 (* await a timer of ms milliseconds *)
| DateNow                             (* Date.now() *)
| NewDateISO                          (* new Date().toISOString() *)
| MathRandom                          (* Math.random(), as a template prints it *)
| Console (is_error : bool) (msg : string)  (* console.error / console.log *)
| AppendFile (path data : string).    (* appendFileSync(path, data) *)

(** What the environment answers.  A send either resolves ([None]) or
    rejects with an error whose message is the given string. *)
Definition reply (e : Event) : Type :=
  match e with
  | SendMail _ => option string
  | DateNow => Z
  | NewDateISO => string
  | MathRandom => string
  | SetTimeout _ | Console _ _ | AppendFile _ _ => unit
  end.

(** One entry of the history: a request together with its answer. *)
Inductive Obs :=
| OSend (m : OutMail) (r : option string)
| OTimeout (ms : Z)
| ONow (t : Z)
| ODate (iso : string)
| ORandom (s : string)
| OConsole (is_error : bool) (msg : string)
| OAppend (path data : string).

Definition observe (e : Event) : reply e → Obs :=
  match e with
  | SendMail m => OSend m
  | SetTimeout ms => λ _, OTimeout ms
  | DateNow => ONow
  | NewDateISO => ODate
  | MathRandom => ORandom
  | Console b msg => λ _, OConsole b msg
  | AppendFile p d => λ _, OAppend p d
  end.

(** The environment: it answers every request, knowing the history so far,
    and it decides in which order the pending recipient sends of one
    [Promise.all] make progress. *)
Record Oracle := mkOracle {
  answer : list Obs → ∀ e : Event, reply e;
  schedule : list Obs → list nat;
}.

(** The program's globals ([forwardedIds], [tasks], [taskId]) and the
    history of its interaction with the world. *)
Record State := mkState {
  forwardedIds : gset string;
  tasks : list ForwardTask;
  taskId : Z;
  trace : list Obs;
}.

Definition set_trace (tr : list Obs) (st : State) : State :=
  mkState (forwardedIds st) (tasks st) (taskId st) tr.
Definition set_forwardedIds (ids : gset string) (st : State) : State :=
  mkState ids (tasks st) (taskId st) (trace st).
Definition set_tasks (ts : list ForwardTask) (st : State) : State :=
  mkState (forwardedIds st) ts (taskId st) (trace st).
Definition set_taskId (n : Z) (st : State) : State :=
  mkState (forwardedIds st) (tasks st) n (trace st).

(** ** Effects *)

(** The result of a call: it returns, or it throws (an [async] function:
    its promise is rejected) with an error message. *)
Inductive Res (A : Type) :=
| Ok (a : A)
| Throw (msg : string).
Arguments Ok {A} a.
Arguments Throw {A} msg.

(** Sequential code: state passing with exceptions. *)
Definition M (A : Type) : Type := State → Res A * State.

Definition ret {A} (a : A) : M A := λ st, (Ok a, st).

Definition bind {A B} (m : M A) (f : A → M B) : M B :=
  λ st, match m st with
        | (Ok a, st') => f a st'
        | (Throw e, st') => (Throw e, st')
        end.

Definition throw {A} (msg : string) : M A := λ st, (Throw msg, st).
Definition gets {A} (f : State → A) : M A := λ st, (Ok (f st), st).
Definition modify (f : State → State) : M unit := λ st, (Ok tt, f st).

Declare Scope m_scope.
Delimit Scope m_scope with M.
Notation "x <- m ;; k" := (bind m (λ x, k))
  (at level 100, m at next level, right associativity) : m_scope.
Notation "m ;; k" := (bind m (λ _, k))
  (at level 100, right associativity) : m_scope.

(** An asynchronous computation that can be suspended at each request to the
    environment and resumed with the answer: one recipient's send. *)
Inductive Thread (A : Type) :=
| Done (a : A)
| Await (e : Event) (k : reply e → Thread A).
Arguments Done {A} a.
Arguments Await {A} e k.

Definition nl : string := String "010"%char EmptyString.
Definition dquote : string := String "034"%char EmptyString.

Inductive Level := INFO | WARN | ERROR.

Definition level_name (l : Level) : string :=
  match l with INFO => "INFO" | WARN => "WARN" | ERROR => "ERROR" end.

(** [level === "ERROR"] *)
Definition is_error_level (l : Level) : bool :=
  match l with ERROR => true | _ => false end.

(** [tasks.unshift(task); if (tasks.length > 100) tasks.pop();] *)
Definition recordTask (task : ForwardTask) (ts : list ForwardTask)
  : list ForwardTask :=
  let ts' := task :: ts in
  if 100 <? Z.of_nat (length ts') then removelast ts' else ts'.

(** The message identifier a mail declares:
    [mail.messageId || mail.headers?.get("message-id")?.toString()]. *)
Definition declaredId (mail : ParsedMail) : option string :=
  JS.or_else (messageId mail) (headers mail ≫= λ h, h !! "message-id").

(** [function isAlreadyForwarded], reading the global [forwardedIds]. *)
Definition isAlreadyForwarded (forwardedIds : gset string) (mail : ParsedMail)
  : bool :=
  match JS.truthy (declaredId mail) with
  | Some messageId => bool_decide (messageId ∈ forwardedIds)
  | None => false
  end.

(** [mail.from?.value?.[0]?.address] *)
Definition firstAddress (mail : ParsedMail) : option string :=
  f ← mail_from mail; a ← head (value f); address a.

(** [mail.subject || "(no subject)"] *)
Definition mailSubject (mail : ParsedMail) : string :=
  JS.or_default (mail_subject mail) "(no subject)".

(** [mail.from?.text || "unknown"] *)
Definition mailFrom (mail : ParsedMail) : string :=
  JS.or_default (text <$> mail_from mail) "unknown".

(** [mail.from?.value?.[0]?.address], or the empty string *)
Definition mailFromAddr (mail : ParsedMail) : string :=
  JS.or_default (firstAddress mail) EmptyString.

Section Pipeline.

Variable config : Config.

(** [process.env.DATA_DIR || "."] *)
Variable DATA_DIR : string.

(** The notification templates of [reply-template.ts]: pure formatting of
    a report into a subject, a text body and an HTML body. *)
Variable getReplySubject getReplyText getReplyHtml : ReplyData → string.

Variable world : Oracle.

Definition LOG_FILE : string := DATA_DIR +:+ "/mail-exchange.log".
Definition FORWARDED_FILE : string := DATA_DIR +:+ "/.forwarded-ids".

(** *** Threads *)

(** [function log], followed by the rest [k] of the caller. *)
Definition log_then {A} (level : Level) (message : string) (k : Thread A)
  : Thread A :=
  Await NewDateISO (λ timestamp,
    let line :=
      "[" +:+ timestamp +:+ "] [" +:+ level_name level +:+ "] "
          +:+ message +:+ nl in
    Await (Console (is_error_level level) message) (λ _,
      Await (AppendFile LOG_FILE line) (λ _, k))).

(** [config.retryCount ?? 3] *)
Definition maxAttempts : Z := default 3 (retryCount config).

(** The options of the forwarding [sendMail] call. *)
Definition forwardMessage (mail : ParsedMail) (recipient : string)
  : OutMail :=
  {| om_from := smtp_auth_user config;
     om_to := recipient;
     om_subject :=
       match JS.truthy (forwardPrefix config) with
       | Some prefix => Some (prefix +:+ " " +:+ JS.render (mail_subject mail))
       | None => mail_subject mail
       end;
     om_text := JS.or_default (mail_text mail) EmptyString;
     om_html := JS.truthy (mail_html mail);
     om_attachments := attachments mail |}.

(** The loop of [sendToRecipient].  [remaining] counts the iterations the
    guard [attempt <= maxAttempts] still allows (it is
    [maxAttempts - attempt + 1], or 0 when that is negative), so the
    loop exits exactly when it reaches 0. *)
Fixpoint sendLoop (mail : ParsedMail) (recipient : string)
    (remaining : nat) (attempt : Z) (lastError : string)
  : Thread RecipientResult :=
  match remaining with
  | O =>
      log_then ERROR
        ("  -> " +:+ recipient +:+ ": FAILED after " +:+ pretty maxAttempts
           +:+ " attempts - " +:+ lastError)
        (Done {| email := recipient; success := false;
                 error := Some lastError; attempts := maxAttempts |})
  | S remaining' =>
      Await (SendMail (forwardMessage mail recipient)) (λ outcome,
        match outcome with
        | None =>
            log_then INFO
              ("  -> " +:+ recipient +:+ ": OK"
                 +:+ (if 1 <? attempt
                      then " (attempt " +:+ pretty attempt +:+ ")"
                      else EmptyString))
              (Done {| email := recipient; success := true;
                       error := None; attempts := attempt |})
        | Some message =>
            let lastError := message in
            log_then WARN
              ("  -> " +:+ recipient +:+ ": RETRY " +:+ pretty attempt
                 +:+ "/" +:+ pretty maxAttempts +:+ " - " +:+ lastError)
              (if attempt <? maxAttempts
               then Await (SetTimeout (1000 * attempt)) (λ _,
                      sendLoop mail recipient remaining' (attempt + 1)
                        lastError)
               else sendLoop mail recipient remaining' (attempt + 1)
                      lastError)
        end)
  end.

(** [async function sendToRecipient] *)
Definition sendToRecipient (mail : ParsedMail) (recipient from : string)
  : Thread RecipientResult :=
  sendLoop mail recipient (Z.to_nat maxAttempts) 1 EmptyString.

(** *** Running threads *)

(** Advance a thread by one request. *)
Definition step_thread {A} (t : Thread A) (tr : list Obs)
  : Thread A * list Obs :=
  match t with
  | Done a => (Done a, tr)
  | Await e k =>
      let r := answer world tr e in
      (k r, (tr ++ [observe e r])%list)
  end.

(** Run a thread to completion with nothing else in between. *)
Fixpoint run_thread {A} (t : Thread A) (tr : list Obs) : A * list Obs :=
  match t with
  | Done a => (a, tr)
  | Await e k =>
      let r := answer world tr e in
      run_thread (k r) (tr ++ [observe e r])%list
  end.

(** Interleave the threads of a pool: each entry of the schedule names the
    thread that makes the next step (an entry that names no thread, or a
    finished one, is skipped). *)
Fixpoint run_pool {A} (sched : list nat) (pool : list (Thread A))
    (tr : list Obs) : list (Thread A) * list Obs :=
  match sched with
  | [] => (pool, tr)
  | i :: sched' =>
      match pool !! i with
      | Some t =>
          let '(t', tr') := step_thread t tr in
          run_pool sched' (<[i := t']> pool) tr'
      | None => run_pool sched' pool tr
      end
  end.

(** Run whatever is left of each thread, in index order, and collect the
    values by index. *)
Fixpoint finish_pool {A} (pool : list (Thread A)) (tr : list Obs)
  : list A * list Obs :=
  match pool with
  | [] => ([], tr)
  | t :: pool' =>
      let '(a, tr') := run_thread t tr in
      let '(rest, tr'') := finish_pool pool' tr' in
      (a :: rest, tr'')
  end.

(** [await Promise.all(pool)] for promises that never reject: the
    environment interleaves them, and the value of promise [i] lands at
    index [i] of the resulting array. *)
Definition promise_all {A} (pool : list (Thread A)) : M (list A) :=
  λ st,
    let '(pool', tr') := run_pool (schedule world (trace st)) pool (trace st) in
    let '(values, tr'') := finish_pool pool' tr' in
    (Ok values, set_trace tr'' st).

(** Run one thread as part of sequential code. *)
Definition lift {A} (t : Thread A) : M A :=
  λ st, let '(a, tr) := run_thread t (trace st) in (Ok a, set_trace tr st).

Definition perform (e : Event) : M (reply e) := lift (Await e Done).

Definition log (level : Level) (message : string) : M unit :=
  lift (log_then level message (Done tt)).

(** *** The pipeline *)

Local Open Scope m_scope.

(** [function saveForwardedId] *)
Definition saveForwardedId (messageId subject : string) : M unit :=
  modify (λ st, set_forwardedIds ({[messageId]} ∪ forwardedIds st) st);;
  perform (AppendFile FORWARDED_FILE (messageId +:+ nl));;
  log INFO ("Marked as processed: " +:+ subject).

(** [function getMessageId]: the declared identifier, or one made of the
    clock and the random generator. *)
Definition getMessageId (mail : ParsedMail) : M string :=
  match JS.truthy (declaredId mail) with
  | Some messageId => ret messageId
  | None =>
      now <- perform DateNow;;
      random <- perform MathRandom;;
      ret (pretty now +:+ "-" +:+ random)
  end.

(** [async function forwardEmail] *)
Definition forwardEmail (mail : ParsedMail) (rule : ForwardRule)
    (from : string) : M (list RecipientResult) :=
  log INFO ("Forwarding from=" +:+ from +:+ " tag=" +:+ tag rule +:+ " to="
              +:+ pretty (Z.of_nat (length (recipients rule)))
              +:+ " recipients");;
  promise_all (map (λ r, sendToRecipient mail r from) (recipients rule)).

(** The report [data] that [sendReplyNotification] builds. *)
Definition replyData (mail : ParsedMail) (results : list RecipientResult)
    (duration : Z) (timestamp : string) : ReplyData :=
  {| rd_subject := mailSubject mail;
     rd_results := results;
     rd_duration := duration;
     rd_timestamp := timestamp |}.

(** The options of the notification [sendMail] call. *)
Definition notificationMessage (replyTo : string) (data : ReplyData)
  : OutMail :=
  {| om_from := smtp_auth_user config;
     om_to := replyTo;
     om_subject := Some (getReplySubject data);
     om_text := getReplyText data;
     om_html := Some (getReplyHtml data);
     om_attachments := None |}.

(** [async function sendReplyNotification]: the one [sendMail] here is
    awaited outside any [try], so its rejection is the function's. *)
Definition sendReplyNotification (mail : ParsedMail)
    (results : list RecipientResult) (duration : Z) : M unit :=
  match JS.truthy (firstAddress mail) with
  | None => ret tt
  | Some replyTo =>
      timestamp <- perform NewDateISO;;
      let data := replyData mail results duration timestamp in
      outcome <- perform (SendMail (notificationMessage replyTo data));;
      match outcome with
      | None => ret tt
      | Some message => throw message
      end
  end.

(** [Math.round(n / 1024)] for a length [n]. *)
Definition roundKB (n : Z) : Z := (2 * n + 1024) / 2048.

(** [task.status = "failed"; task.error = ...] *)
Definition markFailed (task : ForwardTask) (failCount total : Z)
  : ForwardTask :=
  {| task_id := task_id task; timestamp := timestamp task;
     task_subject := task_subject task; task_from := task_from task;
     matchedTag := matchedTag task; task_recipients := task_recipients task;
     status := failed_status;
     task_error :=
       Some (pretty failCount +:+ "/" +:+ pretty total +:+ " failed") |}.

(** [async function processEmail] *)
Definition processEmail (mail : ParsedMail) : M unit :=
  startTime <- perform DateNow;;
  let subject := mailSubject mail in
  let from := mailFrom mail in
  let fromAddr := mailFromAddr mail in
  messageId <- getMessageId mail;;
  let mailSize :=
    pretty (roundKB (Z.of_nat (String.length (default EmptyString (mail_text mail)))))
      +:+ "KB" in
  let attachCount := Z.of_nat (length (default [] (attachments mail))) in
  log INFO ("New mail: " +:+ dquote +:+ subject +:+ dquote
              +:+ " from=" +:+ fromAddr +:+ " size=" +:+ mailSize
              +:+ " attachments=" +:+ pretty attachCount);;
  duplicate <- gets (λ st, isAlreadyForwarded (forwardedIds st) mail);;
  if duplicate : bool then
    log INFO ("Already forwarded (skip): " +:+ subject)
  else if negb (isSenderAllowed config fromAddr) then
    log WARN ("Sender not allowed: " +:+ fromAddr +:+ " - " +:+ subject);;
    saveForwardedId messageId subject
  else
    match matchRule config subject with
    | None =>
        log INFO ("No matching rule for: " +:+ subject);;
        saveForwardedId messageId subject
    | Some rule =>
        modify (λ st, set_taskId (taskId st + 1) st);;
        newId <- gets taskId;;
        created <- perform NewDateISO;;
        let task :=
          {| task_id := newId; timestamp := created;
             task_subject := subject; task_from := from;
             matchedTag := tag rule; task_recipients := recipients rule;
             status := success_status; task_error := None |} in
        results <- forwardEmail mail rule fromAddr;;
        finished <- perform DateNow;;
        let duration := finished - startTime in
        let successCount := Z.of_nat (length (filter (λ r, success r = true) results)) in
        let total := Z.of_nat (length results) in
        let failCount := total - successCount in
        task <-
          (if 0 <? failCount then
             log ERROR ("Forward completed: " +:+ subject +:+ " - "
                          +:+ pretty successCount +:+ "/" +:+ pretty total
                          +:+ " success, " +:+ pretty failCount
                          +:+ " failed (" +:+ pretty duration +:+ "ms)");;
             ret (markFailed task failCount total)
           else
             log INFO ("Forward completed: " +:+ subject +:+ " - "
                         +:+ pretty successCount +:+ "/" +:+ pretty total
                         +:+ " success (" +:+ pretty duration +:+ "ms)");;
             ret task);;
        saveForwardedId messageId subject;;
        sendReplyNotification mail results duration;;
        modify (λ st, set_tasks (recordTask task (tasks st)) st)
    end.

(** Messages arrive one at a time: the pipeline is run on each in turn.
    Whether or not a run throws, the globals it leaves are the ones the
    next run starts from. *)
Fixpoint processAll (mails : list ParsedMail) (st : State) : State :=
  match mails with
  | [] => st
  | mail :: rest => processAll rest (snd (processEmail mail st))
  end.

End Pipeline.

Arguments log_then : simpl never.

(** The state the process starts in, once [loadForwardedIds] has read the
    identifiers [ids] from the id file. *)
Definition initial (ids : gset string) : State :=
  {| forwardedIds := ids; tasks := []; taskId := 0; trace := [] |}.
(** ** Vocabulary of the properties *)

(** [exec t l a]: the thread [t] can ask the requests and receive the
    answers listed in [l], in that order, and then finish with [a].  It
    describes one thread on its own, whoever runs in between. *)
Fixpoint exec {A} (t : Thread A) (l : list Obs) (a : A) : Prop :=
  match t with
  | Done a' => l = [] ∧ a = a'
  | Await e k => ∃ r l', l = observe e r :: l' ∧ exec (k r) l' a
  end.

(** [residual x t]: [t] is what is left of the thread [x.1] once it has
    gone through the history [x.2]. *)
Definition residual {A} (x : Thread A * list Obs) (t : Thread A) : Prop :=
  ∀ l a, exec t l a → exec x.1 (x.2 ++ l)%list a.

(** The outcomes of the transport attempts of a history, in order. *)
Definition send_outcomes (l : list Obs) : list (option string) :=
  omap (λ o, match o with OSend _ r => Some r | _ => None end) l.

(** The messages handed to the transport in a history, in order. *)
Definition sent (l : list Obs) : list OutMail :=
  omap (λ o, match o with OSend m _ => Some m | _ => None end) l.

Definition is_send_or_wait (o : Obs) : bool :=
  match o with OSend _ _ | OTimeout _ => true | _ => false end.

(** The transport attempts and timer waits of a history, in order. *)
Definition attempts_and_waits (l : list Obs) : list Obs :=
  List.filter is_send_or_wait l.

(** What the retry policy prescribes for attempts number [attempt],
    [attempt + 1], ... with the given outcomes: each attempt is a send of
    [m], and a failed attempt is followed by a wait of [1000 * attempt]
    milliseconds exactly when [attempt < max]. *)
Fixpoint retry_protocol (m : OutMail) (max attempt : Z)
    (outcomes : list (option string)) : list Obs :=
  match outcomes with
  | [] => []
  | outcome :: rest =>
      OSend m outcome
        :: (if bool_decide (is_Some outcome ∧ attempt < max)
            then [OTimeout (1000 * attempt)] else [])
        ++ retry_protocol m max (attempt + 1) rest
  end%list.

(** The message of the last failed attempt; the empty string when there was
    no attempt. *)
Definition last_error (outcomes : list (option string)) : string :=
  default EmptyString (mjoin (last outcomes)).

(** Events that neither touch the transport, nor wait, nor write the id
    file: reading the clock or the random generator, writing the log. *)
Definition is_quiet (log_file : string) (o : Obs) : Prop :=
  match o with
  | ONow _ | ODate _ | ORandom _ | OConsole _ _ => True
  | OAppend path _ => path = log_file
  | OSend _ _ | OTimeout _ => False
  end.

(** The append of an identifier to the id file: the durable half of
    [saveForwardedId]. *)
Definition is_mark (id_file : string) (o : Obs) : Prop :=
  match o with
  | OAppend path _ => path = id_file
  | _ => False
  end.

(** What a recipient's thread does to the world: transport attempts, timer
    waits, log writes. *)
Definition is_delivery (log_file : string) (o : Obs) : Prop :=
  match o with
  | OSend _ _ | OTimeout _ => True
  | _ => is_quiet log_file o
  end.

(** [wp m Q st]: run from [st], the call [m] ends in an outcome and a state
    that satisfy [Q]. *)
Definition wp {A} (m : M A) (Q : Res A → State → Prop) (st : State) : Prop :=
  Q (m st).1 (m st).2.

(** How a run comes by the identifier [messageId] of a mail, and the events
    [inc] this takes: the mail declares it, or it is put together from a
    reading of the clock and a draw of the random generator. *)
Definition identifies (mail : ParsedMail) (messageId : string)
    (inc : list Obs) : Prop :=
  (JS.truthy (declaredId mail) = Some messageId ∧ inc = [])
  ∨ (JS.truthy (declaredId mail) = None
     ∧ ∃ now random, inc = [ONow now; ORandom random]
         ∧ messageId = pretty now +:+ "-" +:+ random).

(** The notification step: its events [note] and its outcome.  Without a
    sender address nothing is sent; otherwise the report is sent once, and
    the step throws exactly when the transport rejects that send. *)
Definition notification_step (config : Config)
    (getReplySubject getReplyText getReplyHtml : ReplyData → string)
    (mail : ParsedMail) (results : list RecipientResult) (duration : Z)
    (outcome : Res unit) (note : list Obs) : Prop :=
  match JS.truthy (firstAddress mail) with
  | None => note = [] ∧ outcome = Ok tt
  | Some replyTo =>
      ∃ ts r,
        note = [ODate ts;
                OSend (notificationMessage config getReplySubject getReplyText
                         getReplyHtml replyTo
                         (replyData mail results duration ts)) r]
        ∧ outcome = match r with None => Ok tt | Some msg => Throw msg end
  end.

(** A string without the character [-]. *)
Fixpoint dash_free (s : string) : Prop :=
  match s with
  | EmptyString => True
  | String c s' => c ≠ "-"%char ∧ dash_free s'
  end.

(** The task list is bounded, its entries are in strictly decreasing order
    of sequence id (newest first), and no id exceeds the counter. *)
Definition history_ok (st : State) : Prop :=
  (length (tasks st) ≤ 100)%nat
  ∧ StronglySorted (λ a b, task_id b < task_id a) (tasks st)
  ∧ Forall (λ t, task_id t ≤ taskId st) (tasks st).

(** ** A concrete deployment *)

Module Ex.

(** The configuration of the README, with the default retry count. *)
Definition config : Config :=
  {| smtp_auth_user := "exchange@example.com";
     rules := [mkRule "[PHOTO]" ["a@x.com"; "b@x.com"]];
     forwardPrefix := Some "[Fwd]";
     allowedSenders := Some ["@example.com"];
     retryCount := None |}.

Definition sender (addr : string) : option AddressObject :=
  Some (mkAddressObject [mkAddress (Some addr) "Alice"] ("Alice <" +:+ addr +:+ ">")).

(** A mail that matches the rule, from an allowed sender. *)
Definition mail : ParsedMail :=
  {| messageId := Some "<m1@example.com>";
     headers := None;
     mail_subject := Some "Order photos [photo]";
     mail_from := sender "alice@example.com";
     mail_text := Some "see attachment";
     mail_html := None;
     attachments := Some [] |}.

(** The same mail without any message identifier. *)
Definition anonymous_mail : ParsedMail :=
  {| messageId := None;
     headers := Some ∅;
     mail_subject := Some "Order photos [photo]";
     mail_from := sender "alice@example.com";
     mail_text := Some "see attachment";
     mail_html := None;
     attachments := Some [] |}.

(** A mail from a sender outside the allow-list. *)
Definition stranger_mail : ParsedMail :=
  {| messageId := Some "<m2@elsewhere.org>";
     headers := None;
     mail_subject := Some "Order photos [photo]";
     mail_from := sender "mallory@elsewhere.org";
     mail_text := None;
     mail_html := None;
     attachments := None |}.

(** A stand-in for the three templates. *)
Definition template (data : ReplyData) : string := rd_subject data.

(** An environment with a clock that ticks once per event and a transport
    that rejects the sends addressed to the members of [down]. *)
Definition environment (down : list string) (order : list nat) : Oracle :=
  {| answer := λ tr e,
       match e as e' return reply e' with
       | SendMail m =>
           if bool_decide (om_to m ∈ down)
           then Some "connection refused" else None
       | DateNow => 1700000000000 + Z.of_nat (length tr)
       | NewDateISO => "2023-11-14T22:13:20.000Z"
       | MathRandom => "0.25"
       | SetTimeout _ | Console _ _ | AppendFile _ _ => tt
       end;
     schedule := λ _, order |}.

(** The transport accepts everything. *)
Definition all_up : Oracle := environment [] [1; 0; 1; 0]%nat.

(** The transport rejects every send to the second recipient. *)
Definition b_down : Oracle := environment ["b@x.com"] [1; 1; 0; 1]%nat.

(** The transport rejects every send to the original sender. *)
Definition sender_down : Oracle := environment ["alice@example.com"] [].

Definition run (world : Oracle) (mail : ParsedMail) (st : State)
  : Res unit * State :=
  processEmail config "." template template template world mail st.

(** The one configured rule. *)
Definition rule : ForwardRule := mkRule "[PHOTO]" ["a@x.com"; "b@x.com"].

(** The process right after start, with an empty id file. *)
Definition fresh : State := initial ∅.

(** The process right after start, when the id file holds the identifier of
    [mail]. *)
Definition seen : State := initial {["<m1@example.com>"]}.

End Ex.

(** ** Start-up: the id file *)

Module JSText.

(** The white space and line terminators of [String.prototype.trim] among
    the code units U+0000..U+00FF: TAB, LF, VT, FF, CR, SP and NBSP. *)
Definition isWhiteSpace (c : ascii) : bool :=
  let n := N_of_ascii c in
  ((9 <=? n) && (n <=? 13) || (n =? 32) || (n =? 160))%N.

(** [s.trimStart()] *)
Fixpoint trimStart (s : string) : string :=
  match s with
  | EmptyString => EmptyString
  | String c s' => if isWhiteSpace c then trimStart s' else s
  end.

(** [s.trimEnd()] *)
Fixpoint trimEnd (s : string) : string :=
  match s with
  | EmptyString => EmptyString
  | String c s' =>
      match trimEnd s' with
      | EmptyString => if isWhiteSpace c then EmptyString else String c EmptyString
      | rest => String c rest
      end
  end.

(** [s.trim()] *)
Definition trim (s : string) : string := trimEnd (trimStart s).

(** [s.split("\n")]: the pieces between the line feeds; always at least
    one piece. *)
Fixpoint splitLines (s : string) : list string :=
  match s with
  | EmptyString => [EmptyString]
  | String c s' =>
      if bool_decide (c = "010"%char)
      then EmptyString :: splitLines s'
      else match splitLines s' with
           | piece :: pieces => String c piece :: pieces
           | [] => [String c EmptyString]
           end
  end.

End JSText.

(** [function loadForwardedIds].  [file] is what the file system holds at
    [FORWARDED_FILE]: [None] when [existsSync] says no, the text that
    [readFileSync] returns otherwise.  The result is the global
    [forwardedIds] after the call. *)
Definition loadForwardedIds (file : option string)
    (forwardedIds : gset string) : gset string :=
  match file with
  | Some content =>
      let data := JSText.trim content in
      match data with
      | EmptyString => forwardedIds
      | _ => foldl (λ ids id, {[id]} ∪ ids) forwardedIds
               (JSText.splitLines data)
      end
  | None => forwardedIds
  end.

(** What [appendFileSync] makes of the file at [path] over a history: each
    append to that path adds its data at the end, creating the file when it
    is not there. *)
Fixpoint file_after (path : string) (file : option string) (tr : list Obs)
  : option string :=
  match tr with
  | [] => file
  | OAppend p data :: tr' =>
      if bool_decide (p = path)
      then file_after path (Some (default EmptyString file +:+ data)) tr'
      else file_after path file tr'
  | _ :: tr' => file_after path file tr'
  end.

(** ** Start-up: the configuration file *)

Module Jsonc.

(** The characters that the dot of a regular expression does not match. *)
Definition isLineTerminator (c : ascii) : bool :=
  bool_decide (c = "010"%char) || bool_decide (c = "013"%char).

(** [content.replace(/\/\/.*$/gm, "")]: every match starts at two slashes
    and runs up to the next line terminator (or the end of the text); the
    scan goes on from there.  [inComment] says that the scan is inside a
    match. *)
Fixpoint stripLine (inComment : bool) (s : string) : string :=
  match s with
  | EmptyString => EmptyString
  | String c s' =>
      if inComment then
        if isLineTerminator c then String c (stripLine false s')
        else stripLine true s'
      else if bool_decide (c = "/"%char) && JS.startsWith s' "/"
      then stripLine true s'
      else String c (stripLine false s')
  end.

(** [text.replace(/\/\*[\s\S]*?\*\//g, "")]: a match starts at a slash and a
    star that have a star and a slash somewhere after them, and ends with
    the first such pair; the scan goes on from there.  A slash and a star
    with no closing pair after them match nothing and stay. *)
Fixpoint stripBlock (inComment : bool) (s : string) : string :=
  match s with
  | EmptyString => EmptyString
  | String c s' =>
      if inComment then
        match s' with
        | String d s'' =>
            if bool_decide (c = "*"%char) && bool_decide (d = "/"%char)
            then stripBlock false s''
            else stripBlock true s'
        | EmptyString => EmptyString
        end
      else
        match s' with
        | String d s'' =>
            if bool_decide (c = "/"%char) && bool_decide (d = "*"%char)
               && JS.includes s'' "*/"
            then stripBlock true s''
            else String c (stripBlock false s')
        | EmptyString => String c EmptyString
        end
  end.

(** The text that [parseJsonc] hands to [JSON.parse]. *)
Definition stripped (content : string) : string :=
  stripBlock false (stripLine false content).

(** [function parseJsonc], over whatever [JSON.parse] does. *)
Definition parseJsonc {A} (JSON_parse : string → Res A) (content : string)
  : Res A :=
  JSON_parse (stripped content).

(** A slash and a star that have a star and a slash somewhere after them:
    a block comment. *)
Fixpoint hasBlockComment (s : string) : bool :=
  match s with
  | EmptyString => false
  | String c s' =>
      match s' with
      | String d s'' =>
          bool_decide (c = "/"%char) && bool_decide (d = "*"%char)
          && JS.includes s'' "*/"
          || hasBlockComment s'
      | EmptyString => false
      end
  end.

End Jsonc.

(** ** More vocabulary *)

(** The timer waits of a history, in order. *)
Definition waits (l : list Obs) : list Z :=
  omap (λ o, match o with OTimeout ms => Some ms | _ => None end) l.

(** The events a run adds to the history. *)
Definition new_events (st st' : State) : list Obs :=
  drop (length (trace st)) (trace st').

(** An identifier that survives the id file: not empty, left alone by
    [trim], and without a line feed. *)
Definition clean_id (id : string) : Prop :=
  id ≠ EmptyString
  ∧ JSText.trimStart id = id
  ∧ JSText.trimEnd id = id
  ∧ JSText.splitLines id = [id].

(** The text of an id file that holds the identifiers [ids], one per line,
    as [saveForwardedId] writes them. *)
Definition id_lines (ids : list string) : string :=
  foldr (λ id text, id +:+ nl +:+ text) EmptyString ids.

(** The id file that holds [ids]: none while nothing has been written. *)
Definition id_file (ids : list string) : option string :=
  match ids with
  | [] => None
  | _ => Some (id_lines ids)
  end.

(** What a history appends to the file at [path], in order. *)
Definition marked (path : string) (l : list Obs) : list string :=
  omap (λ o, match o with
             | OAppend p data => if bool_decide (p = path) then Some data else None
             | _ => None
             end) l.

(** The line that [saveForwardedId] appends for an identifier. *)
Definition id_line (id : string) : string := id +:+ nl.

(** Further concrete inputs. *)
Module Cases.

(** A mail that matches the rule of [Ex.config] but names no sender. *)
Definition no_sender_mail : ParsedMail :=
  {| messageId := Some "<m3@example.com>";
     headers := None;
     mail_subject := Some "Order photos [photo]";
     mail_from := None;
     mail_text := Some "see attachment";
     mail_html := None;
     attachments := Some [] |}.

(** [Ex.config] without an allow-list. *)
Definition open_config : Config :=
  {| smtp_auth_user := "exchange@example.com";
     rules := [Ex.rule];
     forwardPrefix := Some "[Fwd]";
     allowedSenders := None;
     retryCount := None |}.

(** [Ex.config] with a retry count of 0. *)
Definition no_retry_config : Config :=
  {| smtp_auth_user := "exchange@example.com";
     rules := [Ex.rule];
     forwardPrefix := Some "[Fwd]";
     allowedSenders := Some ["@example.com"];
     retryCount := Some 0 |}.

(** The delivery of [Ex.mail] to the second recipient of the rule. *)
Definition b_thread : Thread RecipientResult :=
  sendToRecipient Ex.config "." Ex.mail "b@x.com" "alice@example.com".

(** An environment like [Ex.b_down] on another day. *)
Definition b_down_later : Oracle :=
  {| answer := λ tr e,
       match e as e' return reply e' with
       | SendMail m =>
           if bool_decide (om_to m ∈ ["b@x.com"])
           then Some "connection refused" else None
       | DateNow => 1800000000000 + Z.of_nat (length tr)
       | NewDateISO => "2027-01-15T08:00:00.000Z"
       | MathRandom => "0.75"
       | SetTimeout _ | Console _ _ | AppendFile _ _ => tt
       end;
     schedule := λ _, [] |}.

(** The history and the result of [b_thread] in the two environments. *)
Definition b_history : list Obs := (run_thread Ex.b_down b_thread []).2.
Definition b_result : RecipientResult := (run_thread Ex.b_down b_thread []).1.
Definition b_history_later : list Obs :=
  (run_thread b_down_later b_thread []).2.
Definition b_result_later : RecipientResult :=
  (run_thread b_down_later b_thread []).1.

(** The process after [Ex.mail] and a mail from a stranger. *)
Definition after_two : State :=
  processAll Ex.config "." Ex.template Ex.template Ex.template Ex.all_up
    [Ex.mail; Ex.stranger_mail] Ex.fresh.

(** The process started on an id file with one identifier, after three
    mails. *)
Definition after_three : State :=
  processAll Ex.config "." Ex.template Ex.template Ex.template Ex.all_up
    [Ex.mail; Ex.anonymous_mail; Ex.stranger_mail]
    (initial (loadForwardedIds (id_file ["<m0@example.com>"]) ∅)).

End Cases.

(** ** Facts about the string primitives *)

Lemma startsWith_spec s t :
  JS.startsWith s t = true ↔ ∃ post, s = t +:+ post.
Proof.
  revert s. induction t as [|c t IH]; intros s; simpl.
  - split; [intros _; by exists s | done].
  - destruct s as [|d s].
    + split; [done | intros [post Hp]; discriminate Hp].
    + rewrite andb_true_iff, bool_decide_eq_true, IH. split.
      * intros [-> [post ->]]. by exists post.
      * intros [post Hp]. injection Hp as -> ->. eauto.
Qed.

Lemma includes_spec s t :
  JS.includes s t = true ↔ substring_of t s.
Proof.
  unfold substring_of. induction s as [|d s IH]; simpl.
  - rewrite orb_false_r, startsWith_spec. split.
    + intros [post Hp]. by exists EmptyString, post.
    + intros ([|c pre] & post & Hp); [by exists post | discriminate Hp].
  - rewrite orb_true_iff, startsWith_spec, IH. split.
    + intros [[post Hp] | (pre & post & ->)].
      * by exists EmptyString, post.
      * by exists (String d pre), post.
    + intros ([|c pre] & post & Hp).
      * left. by exists post.
      * right. injection Hp as -> ->. by exists pre, post.
Qed.

Lemma includes_false_spec s t :
  JS.includes s t = false ↔ ¬ substring_of t s.
Proof.
  rewrite <- includes_spec. by destruct (JS.includes s t).
Qed.

(** ** Rule matching and the sender allow-list *)

Lemma matchRule_from_Some rs lowerSubject r :
  matchRule_from rs lowerSubject = Some r ↔
  ∃ i : nat, rs !! i = Some r
    ∧ substring_of (JS.toLowerCase (tag r)) lowerSubject
    ∧ ∀ (j : nat) r', (j < i)%nat → rs !! j = Some r' →
        ¬ substring_of (JS.toLowerCase (tag r')) lowerSubject.
Proof.
  induction rs as [|r0 rs IH]; simpl.
  - split; [done | by intros (i & Hi & _)].
  - destruct (JS.includes lowerSubject (JS.toLowerCase (tag r0))) eqn:Hinc.
    + apply includes_spec in Hinc. split.
      * intros [= <-]. exists 0%nat. repeat split; [done|]. intros; lia.
      * intros ([|i] & Hi & Hsub & Hfirst).
        -- by injection Hi as ->.
        -- destruct (Hfirst 0%nat r0); [lia | done | done].
    + apply includes_false_spec in Hinc. rewrite IH. split.
      * intros (i & Hi & Hsub & Hfirst). exists (S i). repeat split; [done..|].
        intros [|j] r' Hj Hr'.
        -- by injection Hr' as <-.
        -- apply (Hfirst j); [lia | done].
      * intros ([|i] & Hi & Hsub & Hfirst).
        -- injection Hi as ->. done.
        -- exists i. repeat split; [done..|].
           intros j r' Hj Hr'. apply (Hfirst (S j)); [lia | done].
Qed.

Lemma matchRule_from_None rs lowerSubject :
  matchRule_from rs lowerSubject = None ↔
  ∀ r, r ∈ rs → ¬ substring_of (JS.toLowerCase (tag r)) lowerSubject.
Proof.
  induction rs as [|r0 rs IH]; simpl.
  - split; [intros _ r Hr; by apply elem_of_nil in Hr | done].
  - destruct (JS.includes lowerSubject (JS.toLowerCase (tag r0))) eqn:Hinc.
    + apply includes_spec in Hinc. split; [done|].
      intros Hno. destruct (Hno r0); [left | done].
    + apply includes_false_spec in Hinc. rewrite IH. split.
      * intros Hno r [->|Hr]%elem_of_cons; auto.
      * intros Hno r Hr. apply Hno. by right.
Qed.

(** C6. [matchRule] returns a rule exactly when that rule stands at some
    position of the configured list, its lowercased tag is a substring of the
    lowercased subject, and no rule at an earlier position has that
    property; it returns none exactly when no configured rule has it.  The
    position in the configuration is the only tie-break. *)
Theorem matchRule_first_in_order (config : Config) (subject : string) :
  (∀ r, matchRule config subject = Some r ↔
     ∃ i : nat, rules config !! i = Some r
       ∧ substring_of (JS.toLowerCase (tag r)) (JS.toLowerCase subject)
       ∧ ∀ (j : nat) r', (j < i)%nat → rules config !! j = Some r' →
           ¬ substring_of (JS.toLowerCase (tag r')) (JS.toLowerCase subject))
  ∧ (matchRule config subject = None ↔
       ∀ r, r ∈ rules config →
         ¬ substring_of (JS.toLowerCase (tag r)) (JS.toLowerCase subject)).
Proof.
  unfold matchRule. split.
  - intros r. apply matchRule_from_Some.
  - apply matchRule_from_None.
Qed.

(** C7. [isSenderAllowed] accepts every sender when the allow-list is absent
    or empty; otherwise it accepts exactly the senders whose lowercased
    address contains some lowercased entry of the list. *)
Theorem isSenderAllowed_spec (config : Config) (email : string) :
  isSenderAllowed config email = true ↔
    allowedSenders config = None
    ∨ allowedSenders config = Some []
    ∨ ∃ senders s, allowedSenders config = Some senders ∧ s ∈ senders
        ∧ substring_of (JS.toLowerCase s) (JS.toLowerCase email).
Proof.
  unfold isSenderAllowed.
  destruct (allowedSenders config) as [[|s0 senders]|] eqn:Hcfg.
  - split; auto.
  - rewrite existsb_exists. split.
    + intros (s & Hin & Hs). right; right.
      exists (s0 :: senders), s. repeat split.
      * by apply list_elem_of_In.
      * by apply includes_spec.
    + intros [?|[?|(senders' & s & [= <-] & Hin & Hs)]]; [done..|].
      exists s. split; [by apply list_elem_of_In | by apply includes_spec].
  - split; auto.
Qed.

(** ** Threads *)

Section Threads.

Variable config : Config.
Variable DATA_DIR : string.
Variable world : Oracle.

Lemma run_thread_exec {A} (t : Thread A) (tr : list Obs) :
  ∃ l a, run_thread world t tr = (a, (tr ++ l)%list) ∧ exec t l a.
Proof.
  revert tr. induction t as [a|e k IH]; intros tr; simpl.
  - exists [], a. by rewrite app_nil_r.
  - destruct (IH (answer world tr e) (tr ++ [observe e (answer world tr e)])%list)
      as (l & a & Hrun & Hex).
    exists (observe e (answer world tr e) :: l), a. split.
    + by rewrite Hrun, <- app_assoc.
    + eauto.
Qed.

Lemma exec_log_then {A} level message (k : Thread A) l a :
  exec (log_then DATA_DIR level message k) l a ↔
  ∃ ts l',
    l = (ODate ts :: OConsole (is_error_level level) message
           :: OAppend (LOG_FILE DATA_DIR)
                ("[" +:+ ts +:+ "] [" +:+ level_name level +:+ "] "
                   +:+ message +:+ nl)
           :: l')%list
    ∧ exec k l' a.
Proof.
  unfold log_then; simpl. split.
  - intros (ts & l1 & -> & [] & l2 & -> & [] & l3 & -> & Hk). eauto.
  - intros (ts & l' & -> & Hk). exists ts. eexists; split; [done|].
    exists tt. eexists; split; [done|]. exists tt. eauto.
Qed.

Lemma last_error_step (e d : string) (rest : list (option string)) :
  Forall is_Some rest →
  default d (mjoin (last (Some e :: rest))) = default e (mjoin (last rest)).
Proof.
  destruct rest as [|x rest]; [done|]. intros Hall.
  rewrite last_cons_cons.
  destruct (last (x :: rest)) as [y|] eqn:Hlast; [|by apply last_None in Hlast].
  apply last_Some in Hlast as [l' Hl']. rewrite Hl' in Hall.
  apply Forall_app in Hall as [_ Hy].
  apply Forall_singleton in Hy as [msg ->]. done.
Qed.

Lemma sendLoop_exec mail recipient remaining attempt lastError l a :
  exec (sendLoop config DATA_DIR mail recipient remaining attempt lastError) l a →
  let outcomes := send_outcomes l in
  (length outcomes ≤ remaining)%nat
  ∧ sent l = replicate (length outcomes) (forwardMessage config mail recipient)
  ∧ (∀ n : nat, outcomes !! n = Some None →
       length outcomes = S n
       ∧ a = mkResult recipient true None (attempt + Z.of_nat n))
  ∧ (Forall is_Some outcomes →
       length outcomes = remaining
       ∧ a = mkResult recipient false
               (Some (default lastError (mjoin (last outcomes))))
               (maxAttempts config))
  ∧ attempts_and_waits l
    = retry_protocol (forwardMessage config mail recipient)
        (maxAttempts config) attempt outcomes
  ∧ Forall (is_delivery (LOG_FILE DATA_DIR)) l.
Proof.
  revert attempt lastError l a.
  induction remaining as [|remaining IH]; intros attempt lastError l a;
    cbn [sendLoop exec].
  - intros (ts & l' & -> & -> & ->)%exec_log_then. simpl.
    repeat split; try done.
    repeat constructor; done.
  - intros ([message|] & l' & -> & Hrest).
    + apply exec_log_then in Hrest as (ts & l'' & -> & Hrest).
      set (waits := if bool_decide (is_Some (Some message)
                                    ∧ attempt < maxAttempts config)
                    then [OTimeout (1000 * attempt)] else []).
      assert (∃ rest, l'' = (waits ++ rest)%list
                ∧ exec (sendLoop config DATA_DIR mail recipient remaining
                          (attempt + 1) message) rest a)
        as (rest & -> & Hex).
      { subst waits. destruct (Z.ltb_spec attempt (maxAttempts config)).
        - destruct Hrest as ([] & l3 & -> & Hrest).
          exists l3. by rewrite bool_decide_eq_true_2 by eauto.
        - exists l''. by rewrite bool_decide_eq_false_2 by (intros [_ ?]; lia). }
      clear Hrest.
      apply IH in Hex as (Hlen & Hsent & Hok & Hfail & Hprot & Hdel).
      assert (send_outcomes (waits ++ rest) = send_outcomes rest) as Hout
        by (subst waits; by case_bool_decide).
      assert (sent (waits ++ rest) = sent rest) as Hsent'
        by (subst waits; by case_bool_decide).
      assert (attempts_and_waits (waits ++ rest)
              = (waits ++ attempts_and_waits rest)%list) as Hwaits
        by (subst waits; by case_bool_decide).
      assert (Forall (is_delivery (LOG_FILE DATA_DIR)) waits) as Hdel'
        by (subst waits; case_bool_decide; by repeat constructor).
      simpl.
      fold (send_outcomes (waits ++ rest)). fold (sent (waits ++ rest)).
      fold (attempts_and_waits (waits ++ rest)).
      rewrite Hout, Hsent', Hwaits. simpl.
      split; [lia|]. split; [by rewrite Hsent|]. split; [|split; [|split]].
      * intros [|n] Hn; [done|]. simpl in Hn.
        destruct (Hok n Hn) as [-> ->]. split; [done|].
        f_equal. lia.
      * intros [_ Hall]%Forall_cons. destruct (Hfail Hall) as [-> ->].
        split; [done|]. by rewrite last_error_step.
      * rewrite Hprot; by subst waits.
      * repeat (constructor; [done|]). by apply Forall_app.
    + apply exec_log_then in Hrest as (ts & l'' & -> & -> & ->). simpl.
      split; [lia|]. split; [done|]. split; [|split; [|split]].
      * intros [|n] Hn; [|done]. split; [done|]. f_equal. lia.
      * intros [[? [=]] _]%Forall_cons.
      * done.
      * repeat constructor; done.
Qed.

(** C3. [sendToRecipient] always returns, whatever the transport answers.
    Whatever history of requests and answers it goes through on the way (on
    its own, or interleaved with the other recipients of a [Promise.all]):
    it makes at most [maxAttempts] transport attempts (the configured
    [retryCount], 3 when none is configured), one after the other, all of
    them sends of the forwarded message to this recipient.  If attempt
    number [n + 1] succeeds, it is the last attempt and the result is
    [{success: true, attempts: n + 1}]; if every attempt fails, there were
    exactly [maxAttempts] attempts and the result is
    [{success: false, error: lastError, attempts: maxAttempts}].  The sends
    and timer waits are exactly those of the retry policy: a failed attempt
    number [k] is followed by a wait of [1000 * k] ms if and only if
    [k < maxAttempts]. *)
Theorem sendToRecipient_retry (mail : ParsedMail) (recipient from : string) :
  0 ≤ maxAttempts config →
  maxAttempts config = default 3 (retryCount config)
  ∧ (∀ tr, ∃ l result,
       run_thread world (sendToRecipient config DATA_DIR mail recipient from) tr
       = (result, (tr ++ l)%list)
       ∧ exec (sendToRecipient config DATA_DIR mail recipient from) l result)
  ∧ (∀ l result,
       exec (sendToRecipient config DATA_DIR mail recipient from) l result →
       Z.of_nat (length (send_outcomes l)) ≤ maxAttempts config
       ∧ sent l = replicate (length (send_outcomes l))
                    (forwardMessage config mail recipient)
       ∧ (∀ n : nat, send_outcomes l !! n = Some None →
            length (send_outcomes l) = S n
            ∧ result = mkResult recipient true None (Z.of_nat (S n)))
       ∧ (Forall is_Some (send_outcomes l) →
            Z.of_nat (length (send_outcomes l)) = maxAttempts config
            ∧ result = mkResult recipient false
                         (Some (last_error (send_outcomes l)))
                         (maxAttempts config))
       ∧ attempts_and_waits l
         = retry_protocol (forwardMessage config mail recipient)
             (maxAttempts config) 1 (send_outcomes l)).
Proof.
  intros Hmax. split; [done|]. split.
  { intros tr. apply run_thread_exec. }
  intros l result Hex.
  apply sendLoop_exec in Hex as (Hlen & Hsent & Hok & Hfail & Hprot & _).
  split; [lia|]. split; [done|]. split; [|split; [|done]].
  - intros n Hn. destruct (Hok n Hn) as [Hl ->]. split; [done|].
    f_equal. lia.
  - intros Hall. destruct (Hfail Hall) as [Hl ->]. split; [lia | done].
Qed.

End Threads.

(** ** Interleaved threads *)

Section Pools.

Variable world : Oracle.
Context {A : Type}.

Lemma residual_start (pool : list (Thread A)) :
  Forall2 residual ((λ t, (t, [])) <$> pool) pool.
Proof.
  induction pool as [|t pool IH]; constructor; [|done].
  by intros l a Hex.
Qed.

Lemma residual_step (t0 : Thread A) l0 e k r :
  residual (t0, l0) (Await e k) →
  residual (t0, (l0 ++ [observe e r])%list) (k r).
Proof.
  intros Hres l a Hex. simpl. rewrite <- app_assoc. apply Hres.
  simpl. eauto.
Qed.

Lemma concat_insert_snoc (ls : list (list Obs)) (i : nat) l0 o :
  ls !! i = Some l0 →
  concat (<[i := (l0 ++ [o])%list]> ls) ≡ₚ (concat ls ++ [o])%list.
Proof.
  revert i. induction ls as [|l1 ls IH]; intros [|i] Hi; simplify_eq/=.
  - rewrite <- !app_assoc. apply Permutation_app_head, Permutation_app_comm.
  - rewrite IH by done. by rewrite app_assoc.
Qed.

(** While the environment interleaves the threads, each one keeps going
    through a history of its own, and the common history is a merge of
    these. *)
Lemma run_pool_inv sched : ∀ (pool : list (Thread A)) g tr inc,
  Forall2 residual g pool →
  Forall (λ x, x.2 `sublist_of` inc) g →
  inc ≡ₚ concat (g.*2) →
  ∃ pool' g' inc',
    run_pool world sched pool (tr ++ inc)%list = (pool', (tr ++ inc')%list)
    ∧ g'.*1 = g.*1
    ∧ Forall2 residual g' pool'
    ∧ Forall (λ x, x.2 `sublist_of` inc') g'
    ∧ inc' ≡ₚ concat (g'.*2).
Proof.
  induction sched as [|i sched IH]; intros pool g tr inc Hres Hsub Hperm; simpl.
  { exists pool, g, inc. done. }
  destruct (pool !! i) as [t|] eqn:Hi; [|by apply IH].
  destruct (Forall2_lookup_r _ _ _ _ _ Hres Hi) as ([t0 l0] & Hgi & Hti).
  destruct t as [a|e k]; simpl.
  { rewrite list_insert_id by done. by apply IH. }
  set (o := observe e (answer world (tr ++ inc)%list e)).
  rewrite <- (app_assoc tr inc [o]).
  destruct (IH (<[i := k (answer world (tr ++ inc)%list e)]> pool)
              (<[i := (t0, (l0 ++ [o])%list)]> g) tr (inc ++ [o])%list)
    as (pool' & g' & inc' & Hrun & Hfst & Hres' & Hsub' & Hperm').
  - apply Forall2_insert; [done|]. by apply residual_step.
  - apply Forall_insert.
    + eapply Forall_impl; [done|]. intros x Hx. by apply sublist_inserts_r.
    + simpl. apply sublist_app; [|done].
      by apply (Forall_lookup_1 _ _ _ _ Hsub Hgi).
  - rewrite list_fmap_insert. simpl. rewrite concat_insert_snoc.
    + by rewrite Hperm.
    + by rewrite list_lookup_fmap, Hgi.
  - exists pool', g', inc'. repeat split; try done.
    rewrite Hfst, list_fmap_insert. simpl.
    apply list_insert_id. by rewrite list_lookup_fmap, Hgi.
Qed.

Lemma finish_pool_inv : ∀ (pool : list (Thread A)) g tr inc,
  Forall2 residual g pool →
  Forall (λ x, x.2 `sublist_of` inc) g →
  ∃ (runs : list (list Obs * A)) add,
    finish_pool world pool (tr ++ inc)%list
    = (runs.*2, (tr ++ inc ++ add)%list)
    ∧ Forall2 (λ x run, exec x.1 run.1 run.2) g runs
    ∧ Forall (λ run, run.1 `sublist_of` (inc ++ add)%list) runs
    ∧ concat (runs.*1) ≡ₚ (concat (g.*2) ++ add)%list.
Proof.
  intros pool g tr inc Hres. revert inc.
  induction Hres as [|[t0 l0] t g pool Ht Hres IH]; intros inc Hsub; simpl.
  { exists [], []. by rewrite !app_nil_r. }
  apply Forall_cons in Hsub as [Hl0 Hsub]. simpl in Hl0.
  destruct (run_thread_exec world t (tr ++ inc)%list) as (l & a & Hrun & Hex).
  rewrite Hrun, <- app_assoc.
  destruct (IH (inc ++ l)%list) as (runs & add & Hfin & Hexs & Hsubs & Hperm).
  { eapply Forall_impl; [done|]. intros x Hx. by apply sublist_inserts_r. }
  rewrite Hfin.
  exists (((l0 ++ l)%list, a) :: runs), (l ++ add)%list. simpl.
  rewrite <- !app_assoc. repeat split.
  - constructor; [by apply Ht | done].
  - constructor; [|by rewrite <- app_assoc in Hsubs].
    simpl. rewrite app_assoc. apply sublist_inserts_r. by apply sublist_app.
  - rewrite Hperm. apply Permutation_app_head.
    rewrite !app_assoc. apply Permutation_app_tail, Permutation_app_comm.
Qed.

(** [Promise.all]: whatever the interleaving, the value at index [i] is a
    result of the thread at index [i]; each thread went through its own
    history in order, and the common history is a merge of these. *)
Lemma promise_all_spec (pool : list (Thread A)) (st : State) :
  ∃ (runs : list (list Obs * A)) inc,
    promise_all world pool st
    = (Ok (runs.*2), set_trace (trace st ++ inc)%list st)
    ∧ Forall2 (λ t run, exec t run.1 run.2) pool runs
    ∧ Forall (λ run, run.1 `sublist_of` inc) runs
    ∧ inc ≡ₚ concat (runs.*1).
Proof.
  unfold promise_all.
  destruct (run_pool_inv (schedule world (trace st)) pool
              ((λ t, (t, [])) <$> pool) (trace st) [])
    as (pool' & g' & inc' & Hrun & Hfst & Hres & Hsub & Hperm).
  { apply residual_start. }
  { apply Forall_fmap, Forall_true. intros t. apply sublist_nil_l. }
  { rewrite <- list_fmap_compose. clear. induction pool; [done|]. done. }
  rewrite app_nil_r in Hrun. rewrite Hrun.
  destruct (finish_pool_inv pool' g' (trace st) inc' Hres Hsub)
    as (runs & add & Hfin & Hexs & Hsubs & Hperm').
  rewrite Hfin. exists runs, (inc' ++ add)%list. repeat split; try done.
  - rewrite <- list_fmap_compose, list_fmap_id in Hfst. rewrite <- Hfst.
    by apply Forall2_fmap_l.
  - by rewrite Hperm', Hperm.
Qed.

End Pools.

(** ** Sequential code *)

Lemma quiet_not_mark DATA_DIR o :
  is_quiet (LOG_FILE DATA_DIR) o → ¬ is_mark (FORWARDED_FILE DATA_DIR) o.
Proof.
  destruct o; simpl; try tauto. intros -> Heq.
  unfold LOG_FILE, FORWARDED_FILE in Heq.
  induction DATA_DIR as [|c d IH]; simpl in Heq; [done|].
  injection Heq as Heq. by apply IH.
Qed.

Lemma delivery_not_mark DATA_DIR o :
  is_delivery (LOG_FILE DATA_DIR) o → ¬ is_mark (FORWARDED_FILE DATA_DIR) o.
Proof.
  destruct o as [| | | | | |path data]; simpl; try tauto.
  apply (quiet_not_mark DATA_DIR (OAppend path data)).
Qed.

Lemma quiet_no_sends log_file l :
  Forall (is_quiet log_file) l → send_outcomes l = [] ∧ sent l = [].
Proof.
  induction 1 as [|o l Ho _ [IH1 IH2]]; [done|].
  destruct o; simpl in *; done.
Qed.

Section Sequential.

Variable config : Config.
Variable DATA_DIR : string.
Variable getReplySubject getReplyText getReplyHtml : ReplyData → string.
Variable world : Oracle.

Local Notation "'quiet'" := (is_quiet (LOG_FILE DATA_DIR)).

Lemma wp_ret {A} (a : A) Q st : Q (Ok a) st → wp (ret a) Q st.
Proof. done. Qed.

Lemma wp_bind {A B} (m : M A) (f : A → M B) Q st :
  wp m (λ r st', match r with
                 | Ok a => wp (f a) Q st'
                 | Throw msg => Q (Throw msg) st'
                 end) st →
  wp (bind m f) Q st.
Proof. unfold wp, bind. by destruct (m st) as [[a|msg] st']. Qed.

Lemma wp_gets {A} (f : State → A) Q st : Q (Ok (f st)) st → wp (gets f) Q st.
Proof. done. Qed.

Lemma wp_modify (f : State → State) Q st : Q (Ok tt) (f st) → wp (modify f) Q st.
Proof. done. Qed.

Lemma wp_throw {A} msg (Q : Res A → State → Prop) st :
  Q (Throw msg) st → wp (throw msg) Q st.
Proof. done. Qed.

Lemma wp_perform e Q st :
  (∀ r, Q (Ok r) (set_trace (trace st ++ [observe e r])%list st)) →
  wp (perform world e) Q st.
Proof. intros HQ. apply HQ. Qed.

Lemma wp_log level message Q st :
  (∀ inc, Forall quiet inc → Q (Ok tt) (set_trace (trace st ++ inc)%list st)) →
  wp (log DATA_DIR world level message) Q st.
Proof.
  intros HQ. unfold wp, log, lift.
  destruct (run_thread_exec world (log_then DATA_DIR level message (Done tt)) (trace st))
    as (l & [] & -> & Hex).
  apply exec_log_then in Hex as (ts & l' & -> & -> & _).
  apply HQ. by repeat constructor.
Qed.

Lemma wp_saveForwardedId messageId subject Q st :
  (∀ inc, Forall quiet inc →
     Q (Ok tt)
       (mkState ({[messageId]} ∪ forwardedIds st) (tasks st) (taskId st)
          (trace st ++ OAppend (FORWARDED_FILE DATA_DIR) (messageId +:+ nl)
             :: inc)%list)) →
  wp (saveForwardedId DATA_DIR world messageId subject) Q st.
Proof.
  intros HQ. unfold saveForwardedId.
  apply wp_bind, wp_modify, wp_bind, wp_perform. intros [].
  apply wp_log. intros inc Hinc. simpl.
  rewrite <- app_assoc. by apply HQ.
Qed.

Lemma wp_getMessageId mail Q st :
  (∀ messageId inc, identifies mail messageId inc →
     Q (Ok messageId) (set_trace (trace st ++ inc)%list st)) →
  wp (getMessageId world mail) Q st.
Proof.
  intros HQ. unfold getMessageId.
  destruct (JS.truthy (declaredId mail)) as [messageId|] eqn:Hid.
  - apply wp_ret.
    specialize (HQ messageId [] (or_introl (conj Hid eq_refl))).
    rewrite app_nil_r in HQ. by destruct st.
  - apply wp_bind, wp_perform. intros now.
    apply wp_bind, wp_perform. intros random. apply wp_ret. simpl.
    rewrite <- app_assoc. apply HQ. right. eauto.
Qed.

Lemma wp_sendReplyNotification mail results duration Q st :
  (∀ outcome note,
     notification_step config getReplySubject getReplyText getReplyHtml
       mail results duration outcome note →
     Q outcome (set_trace (trace st ++ note)%list st)) →
  wp (sendReplyNotification config getReplySubject getReplyText getReplyHtml
        world mail results duration) Q st.
Proof.
  intros HQ. unfold sendReplyNotification.
  pose proof (HQ : ∀ outcome note, _) as HQ'. unfold notification_step in HQ'.
  destruct (JS.truthy (firstAddress mail)) as [replyTo|].
  - apply wp_bind, wp_perform. intros ts.
    apply wp_bind, wp_perform. intros r. simpl.
    rewrite <- app_assoc.
    destruct r as [msg|]; [apply wp_throw | apply wp_ret]; apply HQ'; eauto.
  - apply wp_ret. specialize (HQ' (Ok tt) [] (conj eq_refl eq_refl)).
    rewrite app_nil_r in HQ'. by destruct st.
Qed.

(** [forwardEmail] always returns.  The value at index [i] is a result of
    [sendToRecipient] for the recipient at index [i], reached through a
    history of its own; the events of the call are a log entry followed by
    a merge of these histories. *)
Lemma forwardEmail_spec mail rule from st :
  ∃ (runs : list (list Obs * RecipientResult)) q inc,
    forwardEmail config DATA_DIR world mail rule from st
    = (Ok (runs.*2), set_trace (trace st ++ q ++ inc)%list st)
    ∧ Forall quiet q
    ∧ Forall2 (λ r run,
         exec (sendToRecipient config DATA_DIR mail r from) run.1 run.2)
        (recipients rule) runs
    ∧ Forall (λ run, run.1 `sublist_of` inc) runs
    ∧ inc ≡ₚ concat (runs.*1).
Proof.
  unfold forwardEmail, bind.
  match goal with |- context [log _ _ _ ?m _] => set (message := m) end.
  unfold log, lift.
  destruct (run_thread_exec world (log_then DATA_DIR INFO message (Done tt)) (trace st))
    as (q & [] & -> & Hex).
  apply exec_log_then in Hex as (ts & l' & -> & -> & _).
  match goal with |- context [promise_all _ ?p ?s] =>
    destruct (promise_all_spec world p s) as (runs & inc & -> & Hex & Hsub & Hperm)
  end.
  eexists runs, _, inc. simpl. rewrite <- app_assoc. split; [done|].
  split; [by repeat constructor|]. split; [|done].
  by apply Forall2_fmap_l in Hex.
Qed.

Lemma outcomes_dichotomy (outcomes : list (option string)) :
  Forall is_Some outcomes ∨ ∃ n : nat, outcomes !! n = Some None.
Proof.
  induction outcomes as [|[msg|] outcomes [IH|[n IH]]].
  - by left.
  - left. constructor; [eauto | done].
  - right. by exists (S n).
  - right. by exists 0%nat.
  - right. by exists 0%nat.
Qed.

Lemma sendToRecipient_exec_email mail r from l a :
  exec (sendToRecipient config DATA_DIR mail r from) l a →
  email a = r ∧ Forall (is_delivery (LOG_FILE DATA_DIR)) l.
Proof.
  intros (_ & _ & Hok & Hfail & _ & Hdel)%sendLoop_exec. split; [|done].
  destruct (outcomes_dichotomy (send_outcomes l)) as [Hall|[n Hn]].
  - by destruct (Hfail Hall) as [_ ->].
  - by destruct (Hok n Hn) as [_ ->].
Qed.

Lemma runs_emails mail from (rs : list string)
    (runs : list (list Obs * RecipientResult)) :
  Forall2 (λ r run,
     exec (sendToRecipient config DATA_DIR mail r from) run.1 run.2) rs runs →
  email <$> runs.*2 = rs
  ∧ Forall (is_delivery (LOG_FILE DATA_DIR)) (concat (runs.*1)).
Proof.
  induction 1 as [|r [l a] rs runs Hex _ [IH1 IH2]]; [done|].
  apply sendToRecipient_exec_email in Hex as [Hemail Hdel]. simpl in *.
  split; [by f_equal|]. by apply Forall_app.
Qed.

Lemma wp_forwardEmail mail rule from Q st :
  (∀ (runs : list (list Obs * RecipientResult)) q d,
     forwardEmail config DATA_DIR world mail rule from st
     = (Ok (runs.*2), set_trace (trace st ++ q ++ d)%list st) →
     Forall quiet q →
     Forall (is_delivery (LOG_FILE DATA_DIR)) d →
     Forall2 (λ r run,
        exec (sendToRecipient config DATA_DIR mail r from) run.1 run.2)
       (recipients rule) runs →
     Q (Ok (runs.*2)) (set_trace (trace st ++ q ++ d)%list st)) →
  wp (forwardEmail config DATA_DIR world mail rule from) Q st.
Proof.
  intros HQ. unfold wp.
  destruct (forwardEmail_spec mail rule from st)
    as (runs & q & d & Heq & Hq & Hex & _ & Hperm).
  rewrite Heq. simpl. apply HQ; try done.
  rewrite Hperm. by apply (runs_emails mail from (recipients rule)).
Qed.

Lemma wp_elim {A} (m : M A) Q st :
  wp m Q st → ∃ outcome st', m st = (outcome, st') ∧ Q outcome st'.
Proof. unfold wp. destruct (m st) as [outcome st']. eauto. Qed.

Local Notation "'run_processEmail'" :=
  (processEmail config DATA_DIR getReplySubject getReplyText getReplyHtml world).

Local Ltac wp_state :=
  unfold set_trace, set_taskId, set_tasks, set_forwardedIds in *;
  cbn [trace tasks taskId forwardedIds observe] in *.
Local Ltac wp_prelude t0 mid idinc Hid q0 Hq0 :=
  unfold processEmail;
  apply wp_bind, wp_perform; intros t0; wp_state;
  apply wp_bind, wp_getMessageId; intros mid idinc Hid; wp_state;
  apply wp_bind, wp_log; intros q0 Hq0; wp_state;
  apply wp_bind, wp_gets; wp_state.

(** A duplicate: the run reads the clock, writes the log, and ends. *)
Lemma processEmail_skip mail st :
  isAlreadyForwarded (forwardedIds st) mail = true →
  ∃ inc,
    run_processEmail mail st = (Ok tt, set_trace (trace st ++ inc)%list st)
    ∧ Forall quiet inc.
Proof.
  intros Hdup. destruct st as [ids ts n tr]. simpl in Hdup.
  destruct (wp_elim (run_processEmail mail) (λ outcome st', ∃ inc,
    (outcome, st') = (Ok tt, mkState ids ts n (tr ++ inc)%list)
    ∧ Forall quiet inc) (mkState ids ts n tr))
    as (outcome & st' & -> & inc & [= -> ->] & Hinc); [|by eauto].
  wp_prelude t0 mid idinc Hid q0 Hq0. rewrite Hdup.
  apply wp_log. intros q1 Hq1. wp_state.
  exists (ONow t0 :: idinc ++ q0 ++ q1)%list. split.
  - do 2 f_equal. rewrite <- !app_assoc. done.
  - constructor; [done|]. rewrite !Forall_app. repeat split; try done.
    destruct Hid as [[_ ->]|(_ & now & random & -> & _)]; by repeat constructor.
Qed.

(** A fresh message from a sender that is not allowed, or with a subject
    that matches no rule: the run marks it and ends. *)
Lemma processEmail_drop mail st :
  isAlreadyForwarded (forwardedIds st) mail = false →
  isSenderAllowed config (mailFromAddr mail) = false
  ∨ matchRule config (mailSubject mail) = None →
  ∃ t0 messageId idinc q0 q1,
    run_processEmail mail st
    = (Ok tt,
       mkState ({[messageId]} ∪ forwardedIds st) (tasks st) (taskId st)
         (trace st ++ ONow t0 :: idinc ++ q0
            ++ OAppend (FORWARDED_FILE DATA_DIR) (messageId +:+ nl) :: q1)%list)
    ∧ identifies mail messageId idinc
    ∧ Forall quiet q0 ∧ Forall quiet q1.
Proof.
  intros Hdup Hwhy. destruct st as [ids ts n tr]. simpl in Hdup.
  destruct (wp_elim (run_processEmail mail) (λ outcome st',
    ∃ t0 messageId idinc q0 q1,
    (outcome, st')
    = (Ok tt,
       mkState ({[messageId]} ∪ ids) ts n
         (tr ++ ONow t0 :: idinc ++ q0
            ++ OAppend (FORWARDED_FILE DATA_DIR) (messageId +:+ nl) :: q1)%list)
    ∧ identifies mail messageId idinc
    ∧ Forall quiet q0 ∧ Forall quiet q1) (mkState ids ts n tr))
    as (outcome & st' & -> & t0 & messageId & idinc & q0 & q1 & [= -> ->] & H);
    [|by eauto 10].
  wp_prelude t0 mid idinc Hid q0 Hq0. rewrite Hdup.
  assert (∀ level message,
    wp (bind (log DATA_DIR world level message)
          (λ _, saveForwardedId DATA_DIR world mid (mailSubject mail)))
       (λ outcome st', ∃ t0 messageId idinc q0 q1,
          (outcome, st')
          = (Ok tt,
             mkState ({[messageId]} ∪ ids) ts n
               (tr ++ ONow t0 :: idinc ++ q0
                  ++ OAppend (FORWARDED_FILE DATA_DIR) (messageId +:+ nl) :: q1)%list)
          ∧ identifies mail messageId idinc
          ∧ Forall quiet q0 ∧ Forall quiet q1)
       (mkState ids ts n (((tr ++ [ONow t0]) ++ idinc) ++ q0)%list)) as Hmark.
  { intros level message. apply wp_bind, wp_log. intros q1 Hq1. wp_state.
    apply wp_saveForwardedId. intros q2 Hq2. wp_state.
    exists t0, mid, idinc, (q0 ++ q1)%list, q2. split.
    - do 2 f_equal. rewrite <- !app_assoc. done.
    - rewrite Forall_app. done. }
  destruct (isSenderAllowed config (mailFromAddr mail)) eqn:Hallowed;
    cbn [negb]; [|apply Hmark].
  destruct Hwhy as [?|Hno]; [done|]. rewrite Hno. apply Hmark.
Qed.

(** A fresh message from an allowed sender whose subject matches [rule]:
    prelude, delivery, aggregation, mark, notification, and (unless the
    notification throws) the task recorded. *)
Lemma processEmail_forward mail st rule :
  isAlreadyForwarded (forwardedIds st) mail = false →
  isSenderAllowed config (mailFromAddr mail) = true →
  matchRule config (mailSubject mail) = Some rule →
  ∃ t0 messageId idinc q0 created
    (runs : list (list Obs * RecipientResult)) q1 d t1 q2 q3 outcome note,
    let st1 :=
      mkState (forwardedIds st) (tasks st) (taskId st + 1)
        (trace st ++ ONow t0 :: idinc ++ q0 ++ [ODate created])%list in
    let results := runs.*2 in
    let total := Z.of_nat (length results) in
    let failCount :=
      total - Z.of_nat (length (filter (λ r, success r = true) results)) in
    let task0 :=
      mkTask (taskId st + 1) created (mailSubject mail) (mailFrom mail)
        (tag rule) (recipients rule) success_status None in
    let task :=
      if 0 <? failCount then markFailed task0 failCount total else task0 in
    identifies mail messageId idinc
    ∧ Forall quiet q0 ∧ Forall quiet q1 ∧ Forall quiet q2 ∧ Forall quiet q3
    ∧ Forall (is_delivery (LOG_FILE DATA_DIR)) d
    ∧ Forall2 (λ r run,
         exec (sendToRecipient config DATA_DIR mail r (mailFromAddr mail))
           run.1 run.2)
        (recipients rule) runs
    ∧ forwardEmail config DATA_DIR world mail rule (mailFromAddr mail) st1
      = (Ok results, set_trace (trace st1 ++ q1 ++ d)%list st1)
    ∧ notification_step config getReplySubject getReplyText getReplyHtml
        mail results (t1 - t0) outcome note
    ∧ run_processEmail mail st
      = (outcome,
         mkState ({[messageId]} ∪ forwardedIds st)
           (match outcome with
            | Ok _ => recordTask task (tasks st)
            | Throw _ => tasks st
            end)
           (taskId st + 1)
           (trace st1 ++ q1 ++ d ++ ONow t1 :: q2
              ++ OAppend (FORWARDED_FILE DATA_DIR) (messageId +:+ nl) :: q3
              ++ note)%list).
Proof.
  intros Hdup Hallowed Hmatch. destruct st as [ids ts n tr]. simpl in Hdup.
  destruct (wp_elim (run_processEmail mail) (λ outcome' st',
    ∃ t0 messageId idinc q0 created
      (runs : list (list Obs * RecipientResult)) q1 d t1 q2 q3 outcome note,
    let st1 :=
      mkState ids ts (n + 1)
        (tr ++ ONow t0 :: idinc ++ q0 ++ [ODate created])%list in
    let results := runs.*2 in
    let total := Z.of_nat (length results) in
    let failCount :=
      total - Z.of_nat (length (filter (λ r, success r = true) results)) in
    let task0 :=
      mkTask (n + 1) created (mailSubject mail) (mailFrom mail)
        (tag rule) (recipients rule) success_status None in
    let task :=
      if 0 <? failCount then markFailed task0 failCount total else task0 in
    identifies mail messageId idinc
    ∧ Forall quiet q0 ∧ Forall quiet q1 ∧ Forall quiet q2 ∧ Forall quiet q3
    ∧ Forall (is_delivery (LOG_FILE DATA_DIR)) d
    ∧ Forall2 (λ r run,
         exec (sendToRecipient config DATA_DIR mail r (mailFromAddr mail))
           run.1 run.2)
        (recipients rule) runs
    ∧ forwardEmail config DATA_DIR world mail rule (mailFromAddr mail) st1
      = (Ok results, set_trace (trace st1 ++ q1 ++ d)%list st1)
    ∧ notification_step config getReplySubject getReplyText getReplyHtml
        mail results (t1 - t0) outcome note
    ∧ (outcome', st')
      = (outcome,
         mkState ({[messageId]} ∪ ids)
           (match outcome with
            | Ok _ => recordTask task ts
            | Throw _ => ts
            end)
           (n + 1)
           (trace st1 ++ q1 ++ d ++ ONow t1 :: q2
              ++ OAppend (FORWARDED_FILE DATA_DIR) (messageId +:+ nl) :: q3
              ++ note)%list)) (mkState ids ts n tr))
    as (outcome' & st' & -> & t0 & mid & idinc & q0 & created & runs & q1 & d
        & t1 & q2 & q3 & outcome & note & H).
  2:{ exists t0, mid, idinc, q0, created, runs, q1, d, t1, q2, q3, outcome, note.
      cbn zeta in H. cbn zeta. cbn [forwardedIds tasks taskId trace].
      destruct H as (? & ? & ? & ? & ? & ? & ? & ? & ? & [= -> ->]).
      repeat split; done. }
  wp_prelude t0 mid idinc Hid q0 Hq0. rewrite Hdup, Hallowed, Hmatch. cbn [negb].
  apply wp_bind, wp_modify. wp_state. apply wp_bind, wp_gets. wp_state.
  apply wp_bind, wp_perform. intros created. wp_state.
  apply wp_bind, wp_forwardEmail. intros runs q1 d Hfwd Hq1 Hd Hruns. wp_state.
  apply wp_bind, wp_perform. intros t1. wp_state.
  apply wp_bind.
  match goal with |- wp (if ?c then _ else _) _ _ => destruct c eqn:Hfc end.
  all: apply wp_bind, wp_log; intros q2 Hq2; wp_state; apply wp_ret.
  all: apply wp_bind, wp_saveForwardedId; intros q3 Hq3; wp_state.
  all: apply wp_bind, wp_sendReplyNotification; intros outcome note Hnote.
  all: wp_state.
  all: rewrite <- !app_assoc in Hfwd; cbn [app] in Hfwd.
  all: destruct outcome as [[]|msg]; unfold wp; cbn [modify fst snd].
  all: exists t0, mid, idinc, q0, created, runs, q1, d, t1, q2, q3.
  all: eexists _, note; cbn zeta; rewrite Hfc.
  all: cbn [forwardedIds tasks taskId trace].
  all: repeat (split; [done|]).
  all: split; [rewrite <- ?app_assoc; simpl; rewrite <- ?app_assoc; exact Hfwd|].
  all: split; [exact Hnote|].
  all: do 2 f_equal; rewrite <- !app_assoc; simpl; rewrite <- ?app_assoc; done.
Qed.

End Sequential.

(** ** The pipeline, claim by claim *)

Section Claims.

Variable config : Config.
Variable DATA_DIR : string.
Variable getReplySubject getReplyText getReplyHtml : ReplyData → string.
Variable world : Oracle.

Local Notation "'quiet'" := (is_quiet (LOG_FILE DATA_DIR)).
Local Notation "'run_processEmail'" :=
  (processEmail config DATA_DIR getReplySubject getReplyText getReplyHtml world).
Local Notation "'mark'" := (is_mark (FORWARDED_FILE DATA_DIR)).

Local Ltac assoc_r :=
  repeat first [rewrite <- app_assoc | rewrite <- app_comm_cons].

Lemma last_two {A} (l : list A) (a b : A) : last (l ++ [a; b]) = Some b.
Proof.
  change (last (l ++ [a] ++ [b]) = Some b). rewrite app_assoc. apply last_snoc.
Qed.

Lemma quiet_no_marks l : Forall quiet l → Forall (λ o, ¬ mark o) l.
Proof. intros H. eapply Forall_impl; [done|]. apply quiet_not_mark. Qed.

Lemma delivery_no_marks l :
  Forall (is_delivery (LOG_FILE DATA_DIR)) l → Forall (λ o, ¬ mark o) l.
Proof. intros H. eapply Forall_impl; [done|]. apply delivery_not_mark. Qed.

Lemma identifies_quiet mail messageId inc :
  identifies mail messageId inc → Forall quiet inc.
Proof.
  intros [[_ ->]|(_ & now & random & -> & _)]; by repeat constructor.
Qed.

(** C1. When the identifier a message declares is already in the dedup set,
    [processEmail] returns at once: the dedup set, the task list and the
    task id counter are what they were, and the run has made no transport
    attempt at all (no delivery, no notification), has started no timer and
    has written nothing to the id file; it has only read the clock and
    written the log. *)
Theorem duplicate_is_skipped (mail : ParsedMail) (st : State)
    (messageId : string) :
  JS.truthy (declaredId mail) = Some messageId →
  messageId ∈ forwardedIds st →
  ∃ st' inc,
    run_processEmail mail st = (Ok tt, st')
    ∧ forwardedIds st' = forwardedIds st
    ∧ tasks st' = tasks st
    ∧ taskId st' = taskId st
    ∧ trace st' = (trace st ++ inc)%list
    ∧ Forall quiet inc
    ∧ send_outcomes inc = []
    ∧ Forall (λ o, ¬ mark o) inc.
Proof.
  intros Hid Hin.
  destruct (processEmail_skip config DATA_DIR getReplySubject getReplyText
              getReplyHtml world mail st) as (inc & Heq & Hinc).
  { unfold isAlreadyForwarded. rewrite Hid. by apply bool_decide_eq_true. }
  exists (set_trace (trace st ++ inc)%list st), inc.
  repeat split; try done.
  - by apply (quiet_no_sends (LOG_FILE DATA_DIR)).
  - by apply quiet_no_marks.
Qed.

Lemma notification_step_no_marks mail results duration outcome note :
  notification_step config getReplySubject getReplyText getReplyHtml
    mail results duration outcome note →
  Forall (λ o, ¬ mark o) note.
Proof.
  unfold notification_step. destruct (JS.truthy (firstAddress mail)).
  - intros (ts & r & -> & _). repeat constructor; by intros [].
  - intros [-> _]. constructor.
Qed.

(** C8. A message that is not a duplicate is marked processed exactly once in
    its run, and the run ends with its identifier in the dedup set.  If the
    sender is not allowed or no rule matches, the run returns normally, and
    apart from the mark it only reads the clock and the random generator
    and writes the log: no transport attempt (delivery or notification), no
    timer, no task recorded, task id counter untouched.  If a rule matches,
    the mark comes after the whole of the delivery: the events before the
    mark are a prelude, then all the events of the [forwardEmail] call that
    produces the results, then clock and log; after the mark come log
    events and the notification step. *)
Theorem mark_after_delivery (mail : ParsedMail) (st : State) :
  isAlreadyForwarded (forwardedIds st) mail = false →
  ∃ outcome st' messageId before after,
    run_processEmail mail st = (outcome, st')
    ∧ trace st'
      = (trace st ++ before
           ++ OAppend (FORWARDED_FILE DATA_DIR) (messageId +:+ nl) :: after)%list
    ∧ forwardedIds st' = {[messageId]} ∪ forwardedIds st
    ∧ Forall (λ o, ¬ mark o) before
    ∧ Forall (λ o, ¬ mark o) after
    ∧ (isSenderAllowed config (mailFromAddr mail) = false
       ∨ matchRule config (mailSubject mail) = None →
       outcome = Ok tt
       ∧ tasks st' = tasks st
       ∧ taskId st' = taskId st
       ∧ Forall quiet before ∧ Forall quiet after
       ∧ send_outcomes (before ++ after) = [])
    ∧ (∀ rule,
         isSenderAllowed config (mailFromAddr mail) = true →
         matchRule config (mailSubject mail) = Some rule →
         ∃ pre delivery mid results q note duration,
           before = (pre ++ delivery ++ mid)%list
           ∧ Forall quiet pre ∧ Forall quiet mid
           ∧ forwardEmail config DATA_DIR world mail rule (mailFromAddr mail)
               (mkState (forwardedIds st) (tasks st) (taskId st + 1)
                  (trace st ++ pre)%list)
             = (Ok results,
                mkState (forwardedIds st) (tasks st) (taskId st + 1)
                  (trace st ++ pre ++ delivery)%list)
           ∧ after = (q ++ note)%list
           ∧ Forall quiet q
           ∧ notification_step config getReplySubject getReplyText
               getReplyHtml mail results duration outcome note).
Proof.
  intros Hdup.
  destruct (isSenderAllowed config (mailFromAddr mail)) eqn:Hallowed;
    [destruct (matchRule config (mailSubject mail)) as [rule|] eqn:Hmatch|].
  - destruct (processEmail_forward config DATA_DIR getReplySubject getReplyText
                getReplyHtml world mail st rule Hdup Hallowed Hmatch)
      as (t0 & messageId & idinc & q0 & created & runs & q1 & d & t1 & q2 & q3
          & outcome & note & H).
    cbn zeta in H. cbn [trace] in H. unfold set_trace in H. cbn [trace forwardedIds tasks taskId] in H.
    destruct H as (Hid & Hq0 & Hq1 & Hq2 & Hq3 & Hd & Hruns & Hfwd & Hnote & Heq).
    pose proof (identifies_quiet _ _ _ Hid) as Hidq.
    set (pre := (ONow t0 :: idinc ++ q0 ++ [ODate created])%list) in *.
    assert (Forall quiet pre) as Hpre.
    { subst pre. constructor; [done|]. rewrite !Forall_app.
      repeat split; try done. by repeat constructor. }
    eexists outcome, _, messageId, (pre ++ (q1 ++ d) ++ ONow t1 :: q2)%list,
      (q3 ++ note)%list.
    split; [exact Heq|]. cbn [trace forwardedIds tasks taskId].
    split; [by assoc_r|]. split; [done|].
    split; [|split; [|split]].
    + rewrite !Forall_app. repeat split.
      * by apply quiet_no_marks.
      * by apply quiet_no_marks.
      * by apply delivery_no_marks.
      * apply quiet_no_marks. by constructor.
    + rewrite Forall_app. split; [by apply quiet_no_marks|].
      by eapply notification_step_no_marks.
    + by intros [?|?].
    + intros rule' _ [= <-].
      exists pre, (q1 ++ d)%list, (ONow t1 :: q2)%list, (runs.*2), q3, note,
        (t1 - t0).
      repeat split; try done.
      * by constructor.
      * rewrite <- ?app_assoc in Hfwd. by assoc_r.
  - destruct (processEmail_drop config DATA_DIR getReplySubject getReplyText
                getReplyHtml world mail st Hdup (or_intror Hmatch))
      as (t0 & messageId & idinc & q0 & q1 & Heq & Hid & Hq0 & Hq1).
    pose proof (identifies_quiet _ _ _ Hid) as Hidq.
    assert (Forall quiet (ONow t0 :: idinc ++ q0)%list) as Hbefore.
    { constructor; [done|]. by apply Forall_app. }
    eexists (Ok tt), _, messageId, (ONow t0 :: idinc ++ q0)%list, q1.
    split; [exact Heq|]. cbn [trace forwardedIds tasks taskId].
    split; [by assoc_r|]. split; [done|].
    split; [by apply quiet_no_marks|]. split; [by apply quiet_no_marks|].
    split; [|by intros rule' _ [=]].
    intros _. repeat split; try done.
    apply (quiet_no_sends (LOG_FILE DATA_DIR)). by apply Forall_app.
  - destruct (processEmail_drop config DATA_DIR getReplySubject getReplyText
                getReplyHtml world mail st Hdup (or_introl Hallowed))
      as (t0 & messageId & idinc & q0 & q1 & Heq & Hid & Hq0 & Hq1).
    pose proof (identifies_quiet _ _ _ Hid) as Hidq.
    assert (Forall quiet (ONow t0 :: idinc ++ q0)%list) as Hbefore.
    { constructor; [done|]. by apply Forall_app. }
    eexists (Ok tt), _, messageId, (ONow t0 :: idinc ++ q0)%list, q1.
    split; [exact Heq|]. cbn [trace forwardedIds tasks taskId].
    split; [by assoc_r|]. split; [done|].
    split; [by apply quiet_no_marks|]. split; [by apply quiet_no_marks|].
    split; [|by intros rule' [=]].
    intros _. repeat split; try done.
    apply (quiet_no_sends (LOG_FILE DATA_DIR)). by apply Forall_app.
Qed.

(** C2, as the code has it. For a fresh, allowed, matched message the
    notification is the last step before the task is recorded, and its
    [sendMail] is awaited outside any [try].  So the run throws exactly when
    the transport rejects the notification, with the transport's error
    message; by then the message is marked processed (in the dedup set and
    in the id file) and the task id counter is advanced, and both stay so;
    but the task is recorded only when the run does not throw. *)
Theorem notification_failure_propagates (mail : ParsedMail) (st : State)
    (rule : ForwardRule) :
  isAlreadyForwarded (forwardedIds st) mail = false →
  isSenderAllowed config (mailFromAddr mail) = true →
  matchRule config (mailSubject mail) = Some rule →
  ∃ outcome st' messageId task,
    run_processEmail mail st = (outcome, st')
    ∧ messageId ∈ forwardedIds st'
    ∧ OAppend (FORWARDED_FILE DATA_DIR) (messageId +:+ nl) ∈ trace st'
    ∧ taskId st' = taskId st + 1
    ∧ task_id task = taskId st + 1
    ∧ match JS.truthy (firstAddress mail) with
      | None => outcome = Ok tt
      | Some replyTo =>
          ∃ m r, last (trace st') = Some (OSend m r)
            ∧ om_to m = replyTo
            ∧ outcome = match r with None => Ok tt | Some msg => Throw msg end
      end
    ∧ tasks st' = match outcome with
                  | Ok _ => recordTask task (tasks st)
                  | Throw _ => tasks st
                  end.
Proof.
  intros Hdup Hallowed Hmatch.
  destruct (processEmail_forward config DATA_DIR getReplySubject getReplyText
              getReplyHtml world mail st rule Hdup Hallowed Hmatch)
    as (t0 & messageId & idinc & q0 & created & runs & q1 & d & t1 & q2 & q3
        & outcome & note & H).
  cbn zeta in H.
  destruct H as (_ & _ & _ & _ & _ & _ & _ & _ & Hnote & Heq).
  eexists outcome, _, messageId, _. split; [exact Heq|].
  cbn [trace forwardedIds tasks taskId].
  split; [set_solver|]. split.
  { set_solver. }
  split; [done|]. split; [|split; [|done]].
  { by destruct (0 <? _). }
  unfold notification_step in Hnote.
  destruct (JS.truthy (firstAddress mail)) as [replyTo|]; [|by destruct Hnote].
  destruct Hnote as (ts & r & -> & ->). eexists _, r.
  split;
    [repeat first [rewrite app_assoc | rewrite app_comm_cons]; apply last_two
    |done].
Qed.

Lemma pretty_Z_of_nat (n : nat) : pretty (Z.of_nat n) = pretty n.
Proof. by destruct n. Qed.

Lemma fail_count (results : list RecipientResult) :
  Z.of_nat (length results)
  - Z.of_nat (length (filter (λ r, success r = true) results))
  = Z.of_nat (length (filter (λ r, success r = false) results)).
Proof.
  induction results as [|r results IH]; [done|].
  rewrite !filter_cons.
  destruct (success r); repeat case_decide; try done; simpl in *; lia.
Qed.

Lemma no_failure (results : list RecipientResult) :
  length (filter (λ r, success r = false) results) = 0%nat
  ↔ Forall (λ r, success r = true) results.
Proof.
  induction results as [|r results IH]; [done|].
  rewrite filter_cons, Forall_cons, <- IH.
  destruct (success r); case_decide; try done; simpl.
  - tauto.
  - split; [done | by intros [? _]].
Qed.

(** C4. For a fresh, allowed message that matches [rule], the run builds one
    task from the results of the delivery, whatever order the environment
    lets the recipients' sends complete in.  There is one result per
    recipient, in the order of the rule.  The task has status success if
    and only if every result succeeded, and failed otherwise; when some
    result failed its error is the number of failed results, a slash, the
    number of recipients, and the word failed, and it has no error
    otherwise.  This task goes to the head of the task list (unless the
    notification throws, when no task is recorded). *)
Theorem aggregate_task (mail : ParsedMail) (st : State) (rule : ForwardRule) :
  isAlreadyForwarded (forwardedIds st) mail = false →
  isSenderAllowed config (mailFromAddr mail) = true →
  matchRule config (mailSubject mail) = Some rule →
  ∃ outcome st' results task pre delivery,
    run_processEmail mail st = (outcome, st')
    ∧ Forall quiet pre
    ∧ forwardEmail config DATA_DIR world mail rule (mailFromAddr mail)
        (mkState (forwardedIds st) (tasks st) (taskId st + 1)
           (trace st ++ pre)%list)
      = (Ok results,
         mkState (forwardedIds st) (tasks st) (taskId st + 1)
           (trace st ++ pre ++ delivery)%list)
    ∧ (trace st ++ pre ++ delivery)%list `prefix_of` trace st'
    ∧ email <$> results = recipients rule
    ∧ tasks st' = match outcome with
                  | Ok _ => recordTask task (tasks st)
                  | Throw _ => tasks st
                  end
    ∧ task_id task = taskId st + 1
    ∧ matchedTag task = tag rule
    ∧ task_recipients task = recipients rule
    ∧ (status task = success_status
       ↔ Forall (λ r, success r = true) results)
    ∧ (status task = failed_status
       ↔ ¬ Forall (λ r, success r = true) results)
    ∧ task_error task
      = let failCount := length (filter (λ r, success r = false) results) in
        if decide (0 < failCount)%nat
        then Some (pretty failCount +:+ "/"
                     +:+ pretty (length (recipients rule)) +:+ " failed")
        else None.
Proof.
  intros Hdup Hallowed Hmatch.
  destruct (processEmail_forward config DATA_DIR getReplySubject getReplyText
              getReplyHtml world mail st rule Hdup Hallowed Hmatch)
    as (t0 & messageId & idinc & q0 & created & runs & q1 & d & t1 & q2 & q3
        & outcome & note & H).
  cbn zeta in H. unfold set_trace in H. cbn [trace forwardedIds tasks taskId] in H.
  destruct H as (Hid & Hq0 & Hq1 & Hq2 & Hq3 & Hd & Hruns & Hfwd & Hnote & Heq).
  pose proof (identifies_quiet _ _ _ Hid) as Hidq.
  destruct (runs_emails config DATA_DIR mail (mailFromAddr mail)
              (recipients rule) runs Hruns) as [Hemails _].
  set (results := runs.*2) in *.
  rewrite fail_count in Heq.
  set (failCount := length (filter (λ r, success r = false) results)) in *.
  assert (length results = length (recipients rule)) as Hlen
    by (by rewrite <- Hemails, length_fmap).
  eexists outcome, _, results, _, (ONow t0 :: idinc ++ q0 ++ [ODate created])%list,
    (q1 ++ d)%list.
  split; [exact Heq|]. cbn [trace forwardedIds tasks taskId].
  split.
  { constructor; [done|]. rewrite !Forall_app. repeat split; try done.
    by repeat constructor. }
  split.
  { repeat first [rewrite <- app_assoc in Hfwd
                 |rewrite <- app_comm_cons in Hfwd].
    assoc_r. exact Hfwd. }
  split; [eexists; by assoc_r|].
  split; [done|]. split; [done|].
  pose proof (no_failure results) as Hnone. fold failCount in Hnone.
  destruct (Z.ltb_spec 0 (Z.of_nat failCount)) as [Hpos|Hzero]; simpl.
  - repeat split; try done.
    + intros Hall. apply Hnone in Hall. lia.
    + intros _ Hall. apply Hnone in Hall. lia.
    + rewrite decide_True by lia.
      by rewrite !pretty_Z_of_nat, Hlen.
  - assert (failCount = 0%nat) as Hz by lia.
    repeat split; try done.
    + intros _. by apply Hnone.
    + intros Hno. destruct Hno. by apply Hnone.
    + by rewrite decide_False by lia.
Qed.

(** C10. [forwardEmail] always returns, whatever the transport answers and
    in whatever order the sends complete, with exactly one result per
    configured recipient, in the order of the rule's recipient list: the
    result at index [i] is a result of [sendToRecipient] for the recipient
    at index [i], and carries that recipient's address. *)
Theorem forwardEmail_one_result_per_recipient (mail : ParsedMail)
    (rule : ForwardRule) (from : string) (st : State) :
  ∃ results st',
    forwardEmail config DATA_DIR world mail rule from st = (Ok results, st')
    ∧ length results = length (recipients rule)
    ∧ email <$> results = recipients rule
    ∧ (∀ (i : nat) result, results !! i = Some result →
         recipients rule !! i = Some (email result))
    ∧ Forall2 (λ r result,
         ∃ l, exec (sendToRecipient config DATA_DIR mail r from) l result)
        (recipients rule) results.
Proof.
  destruct (forwardEmail_spec config DATA_DIR world mail rule from st)
    as (runs & q & inc & Heq & _ & Hruns & _ & _).
  destruct (runs_emails config DATA_DIR mail from (recipients rule) runs Hruns)
    as [Hemails _].
  eexists (runs.*2), _. split; [exact Heq|]. repeat split.
  - by rewrite <- Hemails, !length_fmap.
  - done.
  - intros i result Hi. rewrite <- Hemails, list_lookup_fmap, Hi. done.
  - apply Forall2_fmap_r. eapply Forall2_impl; [done|].
    intros r [l a] Hex. by exists l.
Qed.

(** *** Synthesized identifiers *)

Lemma pretty_N_char_not_dash (x : N) : pretty_N_char x ≠ "-"%char.
Proof. unfold pretty_N_char. by repeat case_match. Qed.

Lemma pretty_N_go_dash_free (x : N) (s : string) :
  dash_free s → dash_free (pretty_N_go x s).
Proof.
  revert s. induction (N.lt_wf_0 x) as [x _ IH]; intros s Hs.
  assert (x = 0 ∨ 0 < x)%N as [->|Hx] by lia.
  - exact Hs.
  - rewrite pretty_N_go_step by done. apply IH.
    + by apply N.div_lt.
    + split; [apply pretty_N_char_not_dash | done].
Qed.

Lemma pretty_N_go_nonempty (x : N) (s : string) :
  s ≠ EmptyString → pretty_N_go x s ≠ EmptyString.
Proof.
  revert s. induction (N.lt_wf_0 x) as [x _ IH]; intros s Hs.
  assert (x = 0 ∨ 0 < x)%N as [->|Hx] by lia.
  - exact Hs.
  - rewrite pretty_N_go_step by done. apply IH; [by apply N.div_lt | done].
Qed.

Lemma pretty_N_shape (x : N) :
  ∃ c s, pretty x = String c s ∧ c ≠ "-"%char ∧ dash_free s.
Proof.
  assert (dash_free (pretty x) ∧ pretty x ≠ EmptyString) as [Hfree Hne].
  { unfold pretty, pretty_N. case_decide; [done|]. split.
    - by apply pretty_N_go_dash_free.
    - rewrite pretty_N_go_step by lia. by apply pretty_N_go_nonempty. }
  destruct (pretty x) as [|c s]; [done|]. destruct Hfree. eauto.
Qed.

Lemma append_cons (c : ascii) (a s : string) :
  String c a +:+ s = String c (a +:+ s).
Proof. reflexivity. Qed.

Lemma append_nil (s : string) : EmptyString +:+ s = s.
Proof. reflexivity. Qed.

Lemma dash_split (a b s t : string) :
  dash_free a → dash_free b →
  a +:+ "-" +:+ s = b +:+ "-" +:+ t → a = b ∧ s = t.
Proof.
  revert b. induction a as [|c a IH]; intros [|c' b];
    rewrite ?append_cons, ?append_nil; simpl.
  - intros _ _ [= ->]. done.
  - intros _ [Hc' _] [= <-]. done.
  - intros [Hc _] _ [= ->]. done.
  - intros [_ Ha] [_ Hb] [= -> Heq]. destruct (IH b Ha Hb Heq) as [-> ->]. done.
Qed.

(** An identifier made of a clock reading and a random draw determines
    both. *)
Lemma synthesized_inj (now1 now2 : Z) (random1 random2 : string) :
  pretty now1 +:+ "-" +:+ random1 = pretty now2 +:+ "-" +:+ random2 →
  now1 = now2 ∧ random1 = random2.
Proof.
  assert (∀ z : Z,
    (∃ n : N, z = Z.of_N n ∧ pretty z = pretty n)
    ∨ (∃ n : N, z = - Z.of_N n ∧ pretty z = "-" +:+ pretty n)) as Hshape.
  { intros [|p|p].
    - left. by exists 0%N.
    - left. by exists (Npos p).
    - right. by exists (Npos p). }
  destruct (Hshape now1) as [(n1 & -> & ->)|(n1 & -> & ->)],
    (Hshape now2) as [(n2 & -> & ->)|(n2 & -> & ->)].
  - destruct (pretty_N_shape n1) as (c1 & s1 & H1 & Hc1 & Hs1),
      (pretty_N_shape n2) as (c2 & s2 & H2 & Hc2 & Hs2).
    intros [Heq ->]%dash_split; [|by rewrite H1|by rewrite H2].
    by apply (inj pretty) in Heq as ->.
  - destruct (pretty_N_shape n1) as (c1 & s1 & -> & Hc1 & Hs1).
    simpl. by intros [= -> _].
  - destruct (pretty_N_shape n2) as (c2 & s2 & -> & Hc2 & Hs2).
    simpl. by intros [= <- _].
  - rewrite !append_cons, !append_nil. intros [= Heq].
    destruct (pretty_N_shape n1) as (c1 & s1 & H1 & Hc1 & Hs1),
      (pretty_N_shape n2) as (c2 & s2 & H2 & Hc2 & Hs2).
    apply dash_split in Heq as [Heq ->]; [|by rewrite H1|by rewrite H2].
    by apply (inj pretty) in Heq as ->.
Qed.

(** A message that is not a duplicate: its run reads the clock, settles the
    identifier, and marks it. *)
Lemma processEmail_fresh mail st :
  isAlreadyForwarded (forwardedIds st) mail = false →
  ∃ outcome st' t0 messageId idinc rest,
    run_processEmail mail st = (outcome, st')
    ∧ identifies mail messageId idinc
    ∧ trace st' = (trace st ++ ONow t0 :: idinc ++ rest)%list
    ∧ OAppend (FORWARDED_FILE DATA_DIR) (messageId +:+ nl) ∈ rest
    ∧ forwardedIds st' = {[messageId]} ∪ forwardedIds st.
Proof.
  intros Hdup.
  assert (isSenderAllowed config (mailFromAddr mail) = false
          ∨ matchRule config (mailSubject mail) = None
          ∨ ∃ rule, isSenderAllowed config (mailFromAddr mail) = true
              ∧ matchRule config (mailSubject mail) = Some rule)
    as [Hwhy|[Hwhy|(rule & Hallowed & Hmatch)]].
  { destruct (isSenderAllowed config (mailFromAddr mail)); [|by left].
    destruct (matchRule config (mailSubject mail)); eauto. }
  1, 2: destruct (processEmail_drop config DATA_DIR getReplySubject getReplyText
                    getReplyHtml world mail st Hdup)
          as (t0 & messageId & idinc & q0 & q1 & Heq & Hid & _); [by eauto|];
        eexists (Ok tt), _, t0, messageId, idinc, _;
        (split; [exact Heq|]); cbn [trace forwardedIds];
        (split; [done|]); (split; [done|]); split; [set_solver | done].
  destruct (processEmail_forward config DATA_DIR getReplySubject getReplyText
              getReplyHtml world mail st rule Hdup Hallowed Hmatch)
    as (t0 & messageId & idinc & q0 & created & runs & q1 & d & t1 & q2 & q3
        & outcome & note & H).
  cbn zeta in H. destruct H as (Hid & _ & _ & _ & _ & _ & _ & _ & _ & Heq).
  eexists outcome, _, t0, messageId, idinc, _.
  split; [exact Heq|]. cbn [trace forwardedIds].
  split; [done|]. split; [by assoc_r|]. split; [set_solver | done].
Qed.

(** C9. A message that declares no identifier (neither a parsed
    [messageId] nor a [message-id] header) is never taken for a duplicate,
    whatever the dedup set holds, so its run never stops at the duplicate
    check: it goes on to mark the message.  The identifier it records is put
    together, in that run, from a reading of the clock and a draw of the
    random generator; two such identifiers differ whenever the readings or
    the draws differ. *)
Theorem anonymous_never_duplicate (mail : ParsedMail) :
  JS.truthy (declaredId mail) = None →
  (∀ ids, isAlreadyForwarded ids mail = false)
  ∧ (∀ st, ∃ outcome st' t0 now random rest,
       run_processEmail mail st = (outcome, st')
       ∧ trace st'
         = (trace st ++ ONow t0 :: ONow now :: ORandom random :: rest)%list
       ∧ OAppend (FORWARDED_FILE DATA_DIR)
           ((pretty now +:+ "-" +:+ random) +:+ nl) ∈ rest
       ∧ forwardedIds st'
         = {[pretty now +:+ "-" +:+ random]} ∪ forwardedIds st)
  ∧ (∀ st, ∃ (now : Z) (random : string),
       getMessageId world mail st
       = (Ok (pretty now +:+ "-" +:+ random),
          set_trace (trace st ++ [ONow now; ORandom random])%list st))
  ∧ (∀ (now1 : Z) (random1 : string) (now2 : Z) (random2 : string),
       (now1, random1) ≠ (now2, random2) →
       pretty now1 +:+ "-" +:+ random1 ≠ pretty now2 +:+ "-" +:+ random2).
Proof.
  intros Hnone.
  assert (∀ ids, isAlreadyForwarded ids mail = false) as Hfresh.
  { intros ids. unfold isAlreadyForwarded. by rewrite Hnone. }
  split; [done|]. split; [|split].
  - intros st.
    destruct (processEmail_fresh mail st (Hfresh _))
      as (outcome & st' & t0 & messageId & idinc & rest & Heq & Hid & Htr
          & Hin & Hids).
    destruct Hid as [[Hsome _]|(_ & now & random & -> & ->)];
      [by rewrite Hnone in Hsome|].
    by exists outcome, st', t0, now, random, rest.
  - intros st. unfold getMessageId. rewrite Hnone.
    eexists _, _. unfold bind, perform, lift, ret. simpl.
    by rewrite <- app_assoc.
  - intros now1 random1 now2 random2 Hne Heq.
    apply synthesized_inj in Heq as [-> ->]. done.
Qed.

(** *** Task history *)

Lemma recordTask_take (task : ForwardTask) (ts : list ForwardTask) :
  (length ts ≤ 100)%nat → recordTask task ts = take 100 (task :: ts).
Proof.
  intros Hlen. unfold recordTask.
  destruct (Z.ltb_spec 100 (Z.of_nat (length (task :: ts)))) as [Hover|Hfits].
  - rewrite removelast_firstn_len. simpl in *.
    by replace (length ts) with 100%nat by lia.
  - rewrite take_ge; [done|]. simpl in *. lia.
Qed.

Lemma history_fold (inserted : list ForwardTask) :
  foldl (λ ts task, recordTask task ts) [] inserted
  = take 100 (reverse inserted).
Proof.
  induction inserted as [|task inserted IH] using rev_ind; [done|].
  rewrite foldl_app, reverse_app. simpl. rewrite IH.
  rewrite recordTask_take by (rewrite length_take; lia).
  change 100%nat with (S 99). simpl. f_equal.
  rewrite take_take. f_equal.
Qed.

Lemma StronglySorted_take {A} (R : A → A → Prop) (n : nat) (l : list A) :
  StronglySorted R l → StronglySorted R (take n l).
Proof.
  intros Hl. revert n. induction Hl as [|x l Hl IH Hx]; intros [|n]; simpl;
    try by constructor.
  constructor; [apply IH|]. by apply Forall_take.
Qed.

Lemma history_ok_record (task : ForwardTask) (st : State) :
  history_ok st → task_id task = taskId st + 1 →
  history_ok (mkState (forwardedIds st) (recordTask task (tasks st))
                (taskId st + 1) (trace st)).
Proof.
  intros (Hlen & Hsorted & Hids) Htask. unfold history_ok. simpl.
  rewrite recordTask_take by done. repeat split.
  - rewrite length_take. lia.
  - apply StronglySorted_take. constructor; [done|].
    eapply Forall_impl; [done|]. simpl. intros t Ht. lia.
  - apply Forall_take. constructor; [lia|].
    eapply Forall_impl; [done|]. simpl. intros t Ht. lia.
Qed.

(** What one run does to the task list and to the counter. *)
Lemma processEmail_history (mail : ParsedMail) (st : State) :
  let st' := (run_processEmail mail st).2 in
  (tasks st' = tasks st
   ∧ (taskId st' = taskId st ∨ taskId st' = taskId st + 1))
  ∨ (∃ task, task_id task = taskId st + 1
       ∧ tasks st' = recordTask task (tasks st)
       ∧ taskId st' = taskId st + 1).
Proof.
  destruct (isAlreadyForwarded (forwardedIds st) mail) eqn:Hdup.
  { destruct (processEmail_skip config DATA_DIR getReplySubject getReplyText
                getReplyHtml world mail st Hdup) as (inc & -> & _).
    left. simpl. auto. }
  assert (isSenderAllowed config (mailFromAddr mail) = false
          ∨ matchRule config (mailSubject mail) = None
          ∨ ∃ rule, isSenderAllowed config (mailFromAddr mail) = true
              ∧ matchRule config (mailSubject mail) = Some rule)
    as [Hwhy|[Hwhy|(rule & Hallowed & Hmatch)]].
  { destruct (isSenderAllowed config (mailFromAddr mail)); [|by left].
    destruct (matchRule config (mailSubject mail)); eauto. }
  1, 2: destruct (processEmail_drop config DATA_DIR getReplySubject getReplyText
                    getReplyHtml world mail st Hdup)
          as (t0 & messageId & idinc & q0 & q1 & -> & _); [by eauto|];
        left; simpl; auto.
  destruct (processEmail_forward config DATA_DIR getReplySubject getReplyText
              getReplyHtml world mail st rule Hdup Hallowed Hmatch)
    as (t0 & messageId & idinc & q0 & created & runs & q1 & d & t1 & q2 & q3
        & outcome & note & H).
  cbn zeta in H. destruct H as (_ & _ & _ & _ & _ & _ & _ & _ & _ & ->).
  simpl. destruct outcome as [[]|msg]; [right | left; auto].
  eexists. split; [|split; [reflexivity | done]].
  by destruct (0 <? _).
Qed.

Lemma processEmail_history_ok (mail : ParsedMail) (st : State) :
  history_ok st → history_ok (run_processEmail mail st).2.
Proof.
  intros Hok. pose proof (processEmail_history mail st) as Hrun.
  cbn zeta in Hrun. destruct (run_processEmail mail st) as [outcome st'].
  simpl in *.
  destruct Hrun as [[Htasks Hid]|(task & Htask & Htasks & Hid)].
  - destruct Hok as (Hlen & Hsorted & Hids). unfold history_ok.
    rewrite Htasks. repeat split; try done.
    eapply Forall_impl; [done|]. simpl. intros t Ht. lia.
  - pose proof (history_ok_record task st Hok Htask) as Hok'.
    unfold history_ok in *. simpl in Hok'. by rewrite Htasks, Hid.
Qed.

Lemma processAll_history_ok (mails : list ParsedMail) (st : State) :
  history_ok st →
  history_ok (processAll config DATA_DIR getReplySubject getReplyText
                getReplyHtml world mails st).
Proof.
  revert st. induction mails as [|mail mails IH]; intros st Hok; simpl.
  - done.
  - by apply IH, processEmail_history_ok.
Qed.

(** C5. A task is recorded at the head of the task list, and the entry at
    the tail is dropped when that makes more than 100.  So after any
    sequence of insertions the list holds the latest 100 tasks at most,
    newest first; after 101 insertions it is exactly the last 100, without
    the first.  In the pipeline, started with an empty list, the task list
    never exceeds 100 entries and is in strictly decreasing order of
    sequence id. *)
Theorem task_history_bounded :
  (∀ task ts, (length ts ≤ 100)%nat →
     recordTask task ts = take 100 (task :: ts))
  ∧ (∀ inserted,
       foldl (λ ts task, recordTask task ts) [] inserted
       = take 100 (reverse inserted))
  ∧ (∀ first rest, length rest = 100%nat →
       foldl (λ ts task, recordTask task ts) [] (first :: rest)
       = reverse rest)
  ∧ (∀ mails ids,
       let st := processAll config DATA_DIR getReplySubject getReplyText
                   getReplyHtml world mails (initial ids) in
       (length (tasks st) ≤ 100)%nat
       ∧ StronglySorted (λ a b, task_id b < task_id a) (tasks st)).
Proof.
  split; [apply recordTask_take|]. split; [apply history_fold|]. split.
  - intros first rest Hlen. rewrite history_fold, reverse_cons.
    rewrite take_app_length'; [done|]. by rewrite length_reverse.
  - intros mails ids st.
    destruct (processAll_history_ok mails (initial ids)) as (Hlen & Hsorted & _);
      [|done].
    unfold history_ok. simpl. split; [lia|]. split; constructor.
Qed.

End Claims.

(** ** The theorems at work on the concrete deployment *)

(** The two examples of the specification: both recipients accept the mail;
    the second one keeps rejecting it. *)
Example both_delivered :
  (Ex.run Ex.all_up Ex.mail Ex.fresh).1 = Ok tt
  ∧ status <$> tasks (Ex.run Ex.all_up Ex.mail Ex.fresh).2 = [success_status]
  ∧ task_error <$> tasks (Ex.run Ex.all_up Ex.mail Ex.fresh).2 = [None]
  ∧ send_outcomes (trace (Ex.run Ex.all_up Ex.mail Ex.fresh).2)
    = [None; None; None].
Proof. by vm_compute. Qed.

Example one_recipient_down :
  (Ex.run Ex.b_down Ex.mail Ex.fresh).1 = Ok tt
  ∧ status <$> tasks (Ex.run Ex.b_down Ex.mail Ex.fresh).2 = [failed_status]
  ∧ task_error <$> tasks (Ex.run Ex.b_down Ex.mail Ex.fresh).2
    = [Some "1/2 failed"]
  ∧ (om_to <$> sent (trace (Ex.run Ex.b_down Ex.mail Ex.fresh).2))
    = ["b@x.com"; "a@x.com"; "b@x.com"; "b@x.com"; "alice@example.com"].
Proof. by vm_compute. Qed.

(** Three failed attempts, with waits of one and two seconds in between. *)
Example retries_exhausted :
  (run_thread Ex.b_down
     (sendToRecipient Ex.config "." Ex.mail "b@x.com" "alice@example.com")
     []).1
  = mkResult "b@x.com" false (Some "connection refused") 3
  ∧ omap (λ o, match o with OTimeout ms => Some ms | _ => None end)
      (run_thread Ex.b_down
         (sendToRecipient Ex.config "." Ex.mail "b@x.com" "alice@example.com")
         []).2
    = [1000; 2000].
Proof. by vm_compute. Qed.

(** With a negative retry count the loop body never runs: no attempt is
    made, and the result reports the configured count. *)
Example negative_retry_count :
  run_thread Ex.all_up
    (sendToRecipient (mkConfig "exchange@example.com" [] None None (Some (-1)))
       "." Ex.mail "a@x.com" "alice@example.com")
    []
  = (mkResult "a@x.com" false (Some EmptyString) (-1),
     [ODate "2023-11-14T22:13:20.000Z";
      OConsole true "  -> a@x.com: FAILED after -1 attempts - ";
      OAppend "./mail-exchange.log"
        ("[2023-11-14T22:13:20.000Z] [ERROR]   -> a@x.com: "
           +:+ "FAILED after -1 attempts - " +:+ nl)]).
Proof. by vm_compute. Qed.

(** A message from outside the allow-list is marked and dropped. *)
Example stranger_dropped :
  (Ex.run Ex.all_up Ex.stranger_mail Ex.fresh).1 = Ok tt
  ∧ tasks (Ex.run Ex.all_up Ex.stranger_mail Ex.fresh).2 = []
  ∧ elements (forwardedIds (Ex.run Ex.all_up Ex.stranger_mail Ex.fresh).2)
    = ["<m2@elsewhere.org>"]
  ∧ send_outcomes (trace (Ex.run Ex.all_up Ex.stranger_mail Ex.fresh).2) = [].
Proof. by vm_compute. Qed.


Lemma duplicate_is_skipped_witness :
  (JS.truthy (declaredId Ex.mail) = Some "<m1@example.com>")
  ∧ ("<m1@example.com>" ∈ forwardedIds Ex.seen)
  ∧ (∃ st' inc,
    Ex.run Ex.all_up Ex.mail Ex.seen = (Ok tt, st')
    ∧ forwardedIds st' = forwardedIds Ex.seen
    ∧ tasks st' = tasks Ex.seen
    ∧ taskId st' = taskId Ex.seen
    ∧ trace st' = (trace Ex.seen ++ inc)%list
    ∧ Forall (is_quiet (LOG_FILE ".")) inc
    ∧ send_outcomes inc = []
    ∧ Forall (λ o, ¬ is_mark (FORWARDED_FILE ".") o) inc).
Proof.
  assert (JS.truthy (declaredId Ex.mail) = Some "<m1@example.com>") as H1
    by (vm_compute; reflexivity).
  assert ("<m1@example.com>" ∈ forwardedIds Ex.seen) as H2
    by (vm_compute; reflexivity).
  split; [exact H1|].
  split; [exact H2|].
  exact (duplicate_is_skipped Ex.config "." Ex.template Ex.template Ex.template
           Ex.all_up Ex.mail Ex.seen "<m1@example.com>"
           H1 H2).
Defined.

(** C2, as the specification states it, fails.  The mail matches the rule
    and both recipients accept it, but the transport rejects the
    notification to the original sender: [processEmail] throws the
    transport's error instead of swallowing it, and although the message is
    marked processed and the counter stands at 1, the task list stays
    empty. *)
Lemma notification_failure_not_swallowed :
  matchRule Ex.config (mailSubject Ex.mail) = Some Ex.rule
  ∧ (Ex.run Ex.sender_down Ex.mail Ex.fresh).1 = Throw "connection refused"
  ∧ tasks (Ex.run Ex.sender_down Ex.mail Ex.fresh).2 = []
  ∧ taskId (Ex.run Ex.sender_down Ex.mail Ex.fresh).2 = 1
  ∧ elements (forwardedIds (Ex.run Ex.sender_down Ex.mail Ex.fresh).2)
    = ["<m1@example.com>"]
  ∧ send_outcomes (trace (Ex.run Ex.sender_down Ex.mail Ex.fresh).2)
    = [None; None; Some "connection refused"]
  ∧ ¬ ((Ex.run Ex.sender_down Ex.mail Ex.fresh).1 = Ok tt
       ∧ ∃ task, tasks (Ex.run Ex.sender_down Ex.mail Ex.fresh).2
                 = recordTask task (tasks Ex.fresh)).
Proof.
  assert ((Ex.run Ex.sender_down Ex.mail Ex.fresh).1
          = Throw "connection refused") as Hthrow
    by (vm_compute; reflexivity).
  repeat split; try (vm_compute; reflexivity).
  rewrite Hthrow. by intros [? _].
Qed.

Lemma notification_failure_propagates_witness :
  (isAlreadyForwarded (forwardedIds Ex.fresh) Ex.mail = false)
  ∧ (isSenderAllowed Ex.config (mailFromAddr Ex.mail) = true)
  ∧ (matchRule Ex.config (mailSubject Ex.mail) = Some Ex.rule)
  ∧ (∃ outcome st' messageId task,
    Ex.run Ex.sender_down Ex.mail Ex.fresh = (outcome, st')
    ∧ messageId ∈ forwardedIds st'
    ∧ OAppend (FORWARDED_FILE ".") (messageId +:+ nl) ∈ trace st'
    ∧ taskId st' = taskId Ex.fresh + 1
    ∧ task_id task = taskId Ex.fresh + 1
    ∧ match JS.truthy (firstAddress Ex.mail) with
      | None => outcome = Ok tt
      | Some replyTo =>
          ∃ m r, last (trace st') = Some (OSend m r)
            ∧ om_to m = replyTo
            ∧ outcome = match r with None => Ok tt | Some msg => Throw msg end
      end
    ∧ tasks st' = match outcome with
                  | Ok _ => recordTask task (tasks Ex.fresh)
                  | Throw _ => tasks Ex.fresh
                  end).
Proof.
  assert (isAlreadyForwarded (forwardedIds Ex.fresh) Ex.mail = false) as H1
    by (vm_compute; reflexivity).
  assert (isSenderAllowed Ex.config (mailFromAddr Ex.mail) = true) as H2
    by (vm_compute; reflexivity).
  assert (matchRule Ex.config (mailSubject Ex.mail) = Some Ex.rule) as H3
    by (vm_compute; reflexivity).
  split; [exact H1|].
  split; [exact H2|].
  split; [exact H3|].
  exact (notification_failure_propagates Ex.config "." Ex.template Ex.template Ex.template
           Ex.sender_down Ex.mail Ex.fresh Ex.rule
           H1 H2 H3).
Defined.

Lemma aggregate_task_witness :
  (isAlreadyForwarded (forwardedIds Ex.fresh) Ex.mail = false)
  ∧ (isSenderAllowed Ex.config (mailFromAddr Ex.mail) = true)
  ∧ (matchRule Ex.config (mailSubject Ex.mail) = Some Ex.rule)
  ∧ (∃ outcome st' results task pre delivery,
    Ex.run Ex.b_down Ex.mail Ex.fresh = (outcome, st')
    ∧ Forall (is_quiet (LOG_FILE ".")) pre
    ∧ forwardEmail Ex.config "." Ex.b_down Ex.mail Ex.rule (mailFromAddr Ex.mail)
        (mkState (forwardedIds Ex.fresh) (tasks Ex.fresh) (taskId Ex.fresh + 1)
           (trace Ex.fresh ++ pre)%list)
      = (Ok results,
         mkState (forwardedIds Ex.fresh) (tasks Ex.fresh) (taskId Ex.fresh + 1)
           (trace Ex.fresh ++ pre ++ delivery)%list)
    ∧ (trace Ex.fresh ++ pre ++ delivery)%list `prefix_of` trace st'
    ∧ email <$> results = recipients Ex.rule
    ∧ tasks st' = match outcome with
                  | Ok _ => recordTask task (tasks Ex.fresh)
                  | Throw _ => tasks Ex.fresh
                  end
    ∧ task_id task = taskId Ex.fresh + 1
    ∧ matchedTag task = tag Ex.rule
    ∧ task_recipients task = recipients Ex.rule
    ∧ (status task = success_status
       ↔ Forall (λ r, success r = true) results)
    ∧ (status task = failed_status
       ↔ ¬ Forall (λ r, success r = true) results)
    ∧ task_error task
      = let failCount := length (filter (λ r, success r = false) results) in
        if decide (0 < failCount)%nat
        then Some (pretty failCount +:+ "/"
                     +:+ pretty (length (recipients Ex.rule)) +:+ " failed")
        else None).
Proof.
  assert (isAlreadyForwarded (forwardedIds Ex.fresh) Ex.mail = false) as H1
    by (vm_compute; reflexivity).
  assert (isSenderAllowed Ex.config (mailFromAddr Ex.mail) = true) as H2
    by (vm_compute; reflexivity).
  assert (matchRule Ex.config (mailSubject Ex.mail) = Some Ex.rule) as H3
    by (vm_compute; reflexivity).
  split; [exact H1|].
  split; [exact H2|].
  split; [exact H3|].
  exact (aggregate_task Ex.config "." Ex.template Ex.template Ex.template
           Ex.b_down Ex.mail Ex.fresh Ex.rule
           H1 H2 H3).
Defined.

Lemma mark_after_delivery_witness :
  (isAlreadyForwarded (forwardedIds Ex.fresh) Ex.stranger_mail = false)
  ∧ (∃ outcome st' messageId before after,
    Ex.run Ex.all_up Ex.stranger_mail Ex.fresh = (outcome, st')
    ∧ trace st'
      = (trace Ex.fresh ++ before
           ++ OAppend (FORWARDED_FILE ".") (messageId +:+ nl) :: after)%list
    ∧ forwardedIds st' = {[messageId]} ∪ forwardedIds Ex.fresh
    ∧ Forall (λ o, ¬ is_mark (FORWARDED_FILE ".") o) before
    ∧ Forall (λ o, ¬ is_mark (FORWARDED_FILE ".") o) after
    ∧ (isSenderAllowed Ex.config (mailFromAddr Ex.stranger_mail) = false
       ∨ matchRule Ex.config (mailSubject Ex.stranger_mail) = None →
       outcome = Ok tt
       ∧ tasks st' = tasks Ex.fresh
       ∧ taskId st' = taskId Ex.fresh
       ∧ Forall (is_quiet (LOG_FILE ".")) before
       ∧ Forall (is_quiet (LOG_FILE ".")) after
       ∧ send_outcomes (before ++ after) = [])
    ∧ (∀ rule,
         isSenderAllowed Ex.config (mailFromAddr Ex.stranger_mail) = true →
         matchRule Ex.config (mailSubject Ex.stranger_mail) = Some rule →
         ∃ pre delivery mid results q note duration,
           before = (pre ++ delivery ++ mid)%list
           ∧ Forall (is_quiet (LOG_FILE ".")) pre
           ∧ Forall (is_quiet (LOG_FILE ".")) mid
           ∧ forwardEmail Ex.config "." Ex.all_up Ex.stranger_mail rule
               (mailFromAddr Ex.stranger_mail)
               (mkState (forwardedIds Ex.fresh) (tasks Ex.fresh) (taskId Ex.fresh + 1)
                  (trace Ex.fresh ++ pre)%list)
             = (Ok results,
                mkState (forwardedIds Ex.fresh) (tasks Ex.fresh) (taskId Ex.fresh + 1)
                  (trace Ex.fresh ++ pre ++ delivery)%list)
           ∧ after = (q ++ note)%list
           ∧ Forall (is_quiet (LOG_FILE ".")) q
           ∧ notification_step Ex.config Ex.template Ex.template
               Ex.template Ex.stranger_mail results duration outcome note)).
Proof.
  assert (isAlreadyForwarded (forwardedIds Ex.fresh) Ex.stranger_mail = false) as H1
    by (vm_compute; reflexivity).
  split; [exact H1|].
  exact (mark_after_delivery Ex.config "." Ex.template Ex.template Ex.template
           Ex.all_up Ex.stranger_mail Ex.fresh
           H1).
Defined.

Lemma anonymous_never_duplicate_witness :
  (JS.truthy (declaredId Ex.anonymous_mail) = None)
  ∧ ((∀ ids, isAlreadyForwarded ids Ex.anonymous_mail = false)
  ∧ (∀ st, ∃ outcome st' t0 now random rest,
       Ex.run Ex.all_up Ex.anonymous_mail st = (outcome, st')
       ∧ trace st'
         = (trace st ++ ONow t0 :: ONow now :: ORandom random :: rest)%list
       ∧ OAppend (FORWARDED_FILE ".")
           ((pretty now +:+ "-" +:+ random) +:+ nl) ∈ rest
       ∧ forwardedIds st'
         = {[pretty now +:+ "-" +:+ random]} ∪ forwardedIds st)
  ∧ (∀ st, ∃ (now : Z) (random : string),
       getMessageId Ex.all_up Ex.anonymous_mail st
       = (Ok (pretty now +:+ "-" +:+ random),
          set_trace (trace st ++ [ONow now; ORandom random])%list st))
  ∧ (∀ (now1 : Z) (random1 : string) (now2 : Z) (random2 : string),
       (now1, random1) ≠ (now2, random2) →
       pretty now1 +:+ "-" +:+ random1 ≠ pretty now2 +:+ "-" +:+ random2)).
Proof.
  assert (JS.truthy (declaredId Ex.anonymous_mail) = None) as H1
    by (vm_compute; reflexivity).
  split; [exact H1|].
  exact (anonymous_never_duplicate Ex.config "." Ex.template Ex.template Ex.template
           Ex.all_up Ex.anonymous_mail
           H1).
Defined.

Lemma sendToRecipient_retry_witness :
  (0 ≤ maxAttempts Ex.config)
  ∧ (maxAttempts Ex.config = default 3 (retryCount Ex.config)
  ∧ (∀ tr, ∃ l result,
       run_thread Ex.b_down
         (sendToRecipient Ex.config "." Ex.mail "b@x.com" "alice@example.com")
         tr
       = (result, (tr ++ l)%list)
       ∧ exec
           (sendToRecipient Ex.config "." Ex.mail "b@x.com" "alice@example.com")
           l result)
  ∧ (∀ l result,
       exec
         (sendToRecipient Ex.config "." Ex.mail "b@x.com" "alice@example.com")
         l result →
       Z.of_nat (length (send_outcomes l)) ≤ maxAttempts Ex.config
       ∧ sent l = replicate (length (send_outcomes l))
                    (forwardMessage Ex.config Ex.mail "b@x.com")
       ∧ (∀ n : nat, send_outcomes l !! n = Some None →
            length (send_outcomes l) = S n
            ∧ result = mkResult "b@x.com" true None (Z.of_nat (S n)))
       ∧ (Forall is_Some (send_outcomes l) →
            Z.of_nat (length (send_outcomes l)) = maxAttempts Ex.config
            ∧ result = mkResult "b@x.com" false
                         (Some (last_error (send_outcomes l)))
                         (maxAttempts Ex.config))
       ∧ attempts_and_waits l
         = retry_protocol (forwardMessage Ex.config Ex.mail "b@x.com")
             (maxAttempts Ex.config) 1 (send_outcomes l))).
Proof.
  assert (0 ≤ maxAttempts Ex.config) as H1
    by (unfold maxAttempts; simpl; lia).
  split; [exact H1|].
  exact (sendToRecipient_retry Ex.config "." Ex.b_down Ex.mail "b@x.com"
           "alice@example.com" H1).
Defined.

(** ** Further properties: matching *)

Lemma lowerChar_idemp (c : ascii) : JS.lowerChar (JS.lowerChar c) = JS.lowerChar c.
Proof. by destruct c as [[] [] [] [] [] [] [] []]. Qed.

Lemma toLowerCase_idemp (s : string) :
  JS.toLowerCase (JS.toLowerCase s) = JS.toLowerCase s.
Proof.
  induction s as [|c s IH]; [done|]. simpl. by rewrite lowerChar_idemp, IH.
Qed.

Lemma includes_empty (s : string) : JS.includes s EmptyString = true.
Proof. by destruct s. Qed.

Lemma includes_in_empty (t : string) :
  JS.includes EmptyString t = true → t = EmptyString.
Proof. by destruct t. Qed.

Lemma toLowerCase_empty (s : string) :
  JS.toLowerCase s = EmptyString → s = EmptyString.
Proof. by destruct s. Qed.

(** X1. Matching ignores the letter case of the subject and of the sender
    address: lowercasing either beforehand changes neither the rule that
    [matchRule] returns nor the verdict of [isSenderAllowed]. *)
Theorem matching_ignores_case (config : Config) (subject email : string) :
  matchRule config (JS.toLowerCase subject) = matchRule config subject
  ∧ isSenderAllowed config (JS.toLowerCase email)
    = isSenderAllowed config email.
Proof.
  unfold matchRule, isSenderAllowed. by rewrite !toLowerCase_idemp.
Qed.

(** X2. An empty pattern matches everything.  A rule whose tag is the empty
    string matches every subject, so no rule after it is ever returned; an
    empty string in the allow-list allows every sender. *)
Theorem empty_pattern_matches_all (config : Config) :
  (∀ (i : nat) r subject,
     rules config !! i = Some r → tag r = EmptyString →
     ∃ (j : nat) r', (j ≤ i)%nat ∧ rules config !! j = Some r'
       ∧ matchRule config subject = Some r')
  ∧ (∀ senders email,
       allowedSenders config = Some senders → EmptyString ∈ senders →
       isSenderAllowed config email = true).
Proof.
  split.
  - intros i r subject. unfold matchRule.
    generalize (JS.toLowerCase subject). intros lowerSubject.
    revert i. induction (rules config) as [|r0 rs IH]; intros i Hi Htag.
    { by rewrite lookup_nil in Hi. }
    simpl.
    destruct (JS.includes lowerSubject (JS.toLowerCase (tag r0))) eqn:Hinc.
    + exists 0%nat, r0. split; [lia | done].
    + destruct i as [|i]; simpl in Hi.
      * injection Hi as ->. rewrite Htag in Hinc. simpl in Hinc.
        by rewrite includes_empty in Hinc.
      * destruct (IH i Hi Htag) as (j & r' & Hj & Hr' & Hm).
        exists (S j), r'. split; [lia | done].
  - intros senders email Hcfg Hin. unfold isSenderAllowed. rewrite Hcfg.
    destruct senders as [|s0 senders]; [done|].
    apply existsb_exists. exists EmptyString. split.
    + by apply list_elem_of_In.
    + apply includes_empty.
Qed.

(** ** Further properties: one recipient *)

Section MoreThreads.

Variable config : Config.
Variable DATA_DIR : string.

Lemma waits_attempts_and_waits (l : list Obs) :
  waits (attempts_and_waits l) = waits l.
Proof.
  induction l as [|o l IH]; [done|]. destruct o; simpl; by rewrite ?IH.
Qed.

(** The waits of the retry protocol when only the last outcome may be a
    success: one wait per failed attempt that is not the last one allowed. *)
Lemma waits_retry_protocol (m : OutMail) (max : Z)
    (outcomes : list (option string)) (attempt : Z) :
  (∀ n : nat, outcomes !! n = Some None → length outcomes = S n) →
  attempt + Z.of_nat (length outcomes) ≤ max + 1 →
  waits (retry_protocol m max attempt outcomes)
  = (λ k, 1000 * k)
      <$> seqZ attempt
            (Z.min (Z.of_nat (length (filter is_Some outcomes)))
               (max - attempt)).
Proof.
  revert attempt. induction outcomes as [|outcome outcomes IH];
    intros attempt Hlast Hlen.
  { simpl. by rewrite seqZ_nil by lia. }
  simpl in Hlen. destruct outcome as [message|].
  - rewrite filter_cons_True by eauto. simpl.
    assert (waits (retry_protocol m max (attempt + 1) outcomes)
            = (λ k, 1000 * k)
                <$> seqZ (attempt + 1)
                      (Z.min (Z.of_nat (length (filter is_Some outcomes)))
                         (max - (attempt + 1)))) as Hrest.
    { apply IH; [|lia]. intros n Hn. specialize (Hlast (S n) Hn).
      simpl in Hlast. lia. }
    case_bool_decide as Hwait.
    + simpl. rewrite Hrest. rewrite (seqZ_cons attempt) by lia.
      simpl. do 3 f_equal. lia.
    + simpl. rewrite Hrest.
      assert (max - attempt ≤ 0) by (destruct (decide (attempt < max)); [|lia];
        destruct Hwait; eauto).
      by rewrite !seqZ_nil by lia.
  - specialize (Hlast 0%nat eq_refl). simpl in Hlast.
    destruct outcomes; [|done].
    rewrite filter_cons_False by (by intros [? ?]). simpl.
    by rewrite seqZ_nil by lia.
Qed.

(** X3. Linear backoff.  In every history [sendToRecipient] can go through,
    the timer waits are 1000 ms, 2000 ms, ... in this order, one after each
    failed attempt except an attempt number [maxAttempts]; so when the
    result is a failure after [maxAttempts >= 1] attempts, the waits are
    1000, ..., 1000 * (maxAttempts - 1) and add up to
    500 * maxAttempts * (maxAttempts - 1) ms. *)
Theorem backoff_is_linear (mail : ParsedMail) (recipient from : string)
    (l : list Obs) (result : RecipientResult) :
  0 ≤ maxAttempts config →
  exec (sendToRecipient config DATA_DIR mail recipient from) l result →
  waits l
  = (λ k, 1000 * k)
      <$> seqZ 1
            (Z.min (Z.of_nat (length (filter is_Some (send_outcomes l))))
               (maxAttempts config - 1))
  ∧ (success result = false → 1 ≤ maxAttempts config →
     waits l = (λ k, 1000 * k) <$> seqZ 1 (maxAttempts config - 1)
     ∧ foldr Z.add 0 (waits l)
       = 500 * maxAttempts config * (maxAttempts config - 1)).
Proof.
  intros Hmax Hex.
  apply sendLoop_exec in Hex as (Hlen & _ & Hok & Hfail & Hprot & _).
  assert (waits l
          = (λ k, 1000 * k)
              <$> seqZ 1
                    (Z.min (Z.of_nat (length (filter is_Some (send_outcomes l))))
                       (maxAttempts config - 1))) as Hwaits.
  { rewrite <- waits_attempts_and_waits, Hprot.
    apply waits_retry_protocol; [|lia].
    intros n Hn. by destruct (Hok n Hn). }
  split; [done|]. intros Hfailed Hone.
  assert (Forall is_Some (send_outcomes l)) as Hall.
  { destruct (outcomes_dichotomy (send_outcomes l)) as [?|[n Hn]]; [done|].
    destruct (Hok n Hn) as [_ ->]. done. }
  destruct (Hfail Hall) as [Hcount _].
  assert (filter is_Some (send_outcomes l) = send_outcomes l) as Hfilter.
  { clear -Hall. induction Hall as [|o os Ho _ IH]; [done|].
    by rewrite filter_cons_True, IH. }
  rewrite Hfilter, Hcount in Hwaits.
  replace (Z.min (Z.of_nat (Z.to_nat (maxAttempts config)))
             (maxAttempts config - 1))
    with (maxAttempts config - 1) in Hwaits by lia.
  split; [done|]. rewrite Hwaits.
  generalize (maxAttempts config) Hone. clear.
  intros max Hone.
  replace max with (Z.of_nat (Z.to_nat (max - 1)) + 1) by lia.
  generalize (Z.to_nat (max - 1)). clear. intros n.
  replace (Z.of_nat n + 1 - 1) with (Z.of_nat n) by lia.
  induction n as [|n IH]; [done|].
  rewrite Nat2Z.inj_succ, <- Z.add_1_r.
  rewrite seqZ_app by lia. rewrite fmap_app, foldr_app. simpl.
  assert (∀ (xs : list Z) a, foldr Z.add a xs = foldr Z.add 0 xs + a) as Hshift.
  { clear. induction xs as [|x xs IH]; intros a; simpl; [lia|].
    rewrite (IH a). lia. }
  rewrite Hshift, IH. lia.
Qed.

(** X4. Independence: the result of [sendToRecipient] is determined by the
    outcomes of its own transport attempts.  Two histories of the same call
    with the same attempt outcomes end in the same result, whatever else
    differs in them (clock readings, what the other recipients did in
    between). *)
Theorem result_depends_on_own_attempts (mail : ParsedMail)
    (recipient from : string) (l1 l2 : list Obs)
    (result1 result2 : RecipientResult) :
  exec (sendToRecipient config DATA_DIR mail recipient from) l1 result1 →
  exec (sendToRecipient config DATA_DIR mail recipient from) l2 result2 →
  send_outcomes l1 = send_outcomes l2 →
  result1 = result2.
Proof.
  intros (_ & _ & Hok1 & Hfail1 & _)%sendLoop_exec
         (_ & _ & Hok2 & Hfail2 & _)%sendLoop_exec Heq.
  rewrite <- Heq in Hok2, Hfail2.
  destruct (outcomes_dichotomy (send_outcomes l1)) as [Hall|[n Hn]].
  - destruct (Hfail1 Hall) as [_ ->], (Hfail2 Hall) as [_ ->]. done.
  - destruct (Hok1 n Hn) as [_ ->], (Hok2 n Hn) as [_ ->]. done.
Qed.

End MoreThreads.

(** ** Further properties: one message *)

Section MoreRuns.

Variable config : Config.
Variable DATA_DIR : string.
Variable getReplySubject getReplyText getReplyHtml : ReplyData → string.
Variable world : Oracle.

Local Notation "'quiet'" := (is_quiet (LOG_FILE DATA_DIR)).
Local Notation "'run_processEmail'" :=
  (processEmail config DATA_DIR getReplySubject getReplyText getReplyHtml world).
Local Notation "'mark'" := (is_mark (FORWARDED_FILE DATA_DIR)).
Local Ltac assoc_r :=
  repeat first [rewrite <- app_assoc | rewrite <- app_comm_cons].

Lemma sent_app (l1 l2 : list Obs) : sent (l1 ++ l2) = (sent l1 ++ sent l2)%list.
Proof. apply omap_app. Qed.

Lemma quiet_sent (l : list Obs) : Forall quiet l → sent l = [].
Proof. intros Hl. by apply (quiet_no_sends (LOG_FILE DATA_DIR)). Qed.

Lemma new_events_app (st st' : State) (inc : list Obs) :
  trace st' = (trace st ++ inc)%list → new_events st st' = inc.
Proof. intros Htr. unfold new_events. rewrite Htr. apply drop_app_length. Qed.

(** The sends of the histories of the recipients of one [forwardEmail]. *)
Lemma runs_sends (mail : ParsedMail) (from : string) (rs : list string)
    (runs : list (list Obs * RecipientResult)) :
  Forall2 (λ r run,
     exec (sendToRecipient config DATA_DIR mail r from) run.1 run.2) rs runs →
  (length (sent (concat (runs.*1)))
   ≤ length rs * Z.to_nat (maxAttempts config))%nat
  ∧ Forall (λ m, ∃ r, r ∈ rs ∧ m = forwardMessage config mail r)
      (sent (concat (runs.*1))).
Proof.
  induction 1 as [|r [l a] rs runs Hex _ [IHlen IHto]]; [by split|].
  rewrite fmap_cons. cbn [fst snd concat] in *.
  rewrite sent_app, length_app, Forall_app.
  apply sendLoop_exec in Hex as (Hlen & Hsent & _).
  rewrite Hsent, length_replicate. split; [cbn [length]; lia|]. split.
  - apply Forall_replicate. exists r. split; [left | done].
  - eapply Forall_impl; [done|]. intros m (r' & Hr' & ->).
    exists r'. split; [by right | done].
Qed.

(** The sends of one [forwardEmail]: at most [maxAttempts] per recipient,
    each one the forwarded message addressed to a recipient of the rule. *)
Lemma forwardEmail_sends (mail : ParsedMail) (rule : ForwardRule)
    (from : string) (st st' : State) (results : list RecipientResult)
    (inc : list Obs) :
  forwardEmail config DATA_DIR world mail rule from st = (Ok results, st') →
  trace st' = (trace st ++ inc)%list →
  (length (sent inc)
   ≤ length (recipients rule) * Z.to_nat (maxAttempts config))%nat
  ∧ Forall (λ m, ∃ r, r ∈ recipients rule ∧ m = forwardMessage config mail r)
      (sent inc).
Proof.
  intros Heq Htr.
  destruct (forwardEmail_spec config DATA_DIR world mail rule from st)
    as (runs & q & d & Heq' & Hq & Hruns & _ & Hperm).
  rewrite Heq in Heq'. injection Heq' as _ ->. simpl in Htr.
  apply app_inv_head in Htr as <-.
  rewrite sent_app, (quiet_sent q Hq). simpl.
  destruct (runs_sends mail from (recipients rule) runs Hruns) as [Hlen Hto].
  assert (sent d ≡ₚ sent (concat (runs.*1))) as Hsent
    by (unfold sent; by rewrite Hperm).
  rewrite Hsent. done.
Qed.

Lemma sent_skip (o : Obs) (l : list Obs) :
  match o with OSend _ _ => False | _ => True end → sent (o :: l) = sent l.
Proof. by destruct o. Qed.

Lemma run_cases (mail : ParsedMail) (st : State) :
  isAlreadyForwarded (forwardedIds st) mail = true
  ∨ (isAlreadyForwarded (forwardedIds st) mail = false
     ∧ (isSenderAllowed config (mailFromAddr mail) = false
        ∨ matchRule config (mailSubject mail) = None))
  ∨ (∃ rule,
       isAlreadyForwarded (forwardedIds st) mail = false
       ∧ isSenderAllowed config (mailFromAddr mail) = true
       ∧ matchRule config (mailSubject mail) = Some rule).
Proof.
  destruct (isAlreadyForwarded (forwardedIds st) mail); [by left|].
  destruct (isSenderAllowed config (mailFromAddr mail)); [|by eauto].
  destruct (matchRule config (mailSubject mail)); eauto 6.
Qed.

(** The recipients of the rule that the subject of a mail matches. *)
Local Notation "'recipients_of' mail" :=
  (default [] (recipients <$> matchRule config (mailSubject mail)))
  (at level 10, mail at level 9).

(** The transport sends of one run: the delivery attempts, then at most one
    notification. *)
Lemma processEmail_sends (mail : ParsedMail) (st : State) :
  ∃ outcome st' inc deliveries notes,
    run_processEmail mail st = (outcome, st')
    ∧ trace st' = (trace st ++ inc)%list
    ∧ sent inc = (deliveries ++ notes)%list
    ∧ (length deliveries
       ≤ length (recipients_of mail) * Z.to_nat (maxAttempts config))%nat
    ∧ Forall (λ m, ∃ r, r ∈ recipients_of mail
                ∧ m = forwardMessage config mail r) deliveries
    ∧ (notes = []
       ∨ ∃ replyTo data,
           JS.truthy (firstAddress mail) = Some replyTo
           ∧ notes = [notificationMessage config getReplySubject getReplyText
                        getReplyHtml replyTo data]).
Proof.
  destruct (run_cases mail st)
    as [Hdup|[[Hdup Hwhy]|(rule & Hdup & Hallowed & Hmatch)]].
  - destruct (processEmail_skip config DATA_DIR getReplySubject getReplyText
                getReplyHtml world mail st Hdup) as (inc & Heq & Hinc).
    eexists _, _, inc, [], []. split; [exact Heq|].
    split; [done|]. rewrite (quiet_sent inc Hinc).
    split; [done|]. split; [simpl; lia|]. split; [constructor | by left].
  - destruct (processEmail_drop config DATA_DIR getReplySubject getReplyText
                getReplyHtml world mail st Hdup Hwhy)
      as (t0 & messageId & idinc & q0 & q1 & Heq & Hid & Hq0 & Hq1).
    eexists _, _, _, [], []. split; [exact Heq|].
    split; [reflexivity|].
    assert (Forall quiet idinc) as Hidq.
    { destruct Hid as [[_ ->]|(_ & now & random & -> & _)];
        by repeat constructor. }
    simpl. rewrite !sent_app, (quiet_sent idinc Hidq), (quiet_sent q0 Hq0).
    simpl. rewrite (quiet_sent q1 Hq1).
    split; [done|]. split; [simpl; lia|]. split; [constructor | by left].
  - destruct (processEmail_forward config DATA_DIR getReplySubject getReplyText
                getReplyHtml world mail st rule Hdup Hallowed Hmatch)
      as (t0 & messageId & idinc & q0 & created & runs & q1 & d & t1 & q2 & q3
          & outcome & note & H).
    cbn zeta in H.
    destruct H as (Hid & Hq0 & Hq1 & Hq2 & Hq3 & Hd & Hruns & Hfwd & Hnote & Heq).
    assert (Forall quiet idinc) as Hidq.
    { destruct Hid as [[_ ->]|(_ & now & random & -> & _)];
        by repeat constructor. }
    destruct (forwardEmail_sends mail rule (mailFromAddr mail) _ _ _
                (q1 ++ d)%list Hfwd eq_refl) as [Hlen Hto].
    eexists outcome, _, _, (sent (q1 ++ d)), (sent note).
    split; [exact Heq|]. cbn [trace]. rewrite Hmatch. simpl.
    split; [by assoc_r|].
    split.
    { repeat first [rewrite sent_app | rewrite sent_skip by exact I].
      rewrite (quiet_sent idinc Hidq), (quiet_sent q0 Hq0),
        (quiet_sent q2 Hq2), (quiet_sent q3 Hq3).
      simpl. by rewrite app_assoc. }
    split; [done|]. split; [done|].
    unfold notification_step in Hnote.
    destruct (JS.truthy (firstAddress mail)) as [replyTo|].
    + destruct Hnote as (ts & r & -> & _). right. eauto.
    + destruct Hnote as [-> _]. by left.
Qed.

(** X5. A run of [processEmail] hands mail to the transport only for the
    recipients of the rule that the subject matches and for the sender of
    the message: every send of the run is either the forwarded message
    addressed to one of the matched rule's recipients, or the notification
    addressed to the first address of the sender; all carry the configured
    envelope sender. *)
Theorem sends_only_to_recipients_and_sender (mail : ParsedMail) (st : State) :
  Forall (λ m,
      om_from m = smtp_auth_user config
      ∧ ((∃ rule, matchRule config (mailSubject mail) = Some rule
            ∧ om_to m ∈ recipients rule
            ∧ m = forwardMessage config mail (om_to m))
         ∨ JS.truthy (firstAddress mail) = Some (om_to m)))
    (sent (new_events st (run_processEmail mail st).2)).
Proof.
  destruct (processEmail_sends mail st)
    as (outcome & st' & inc & deliveries & notes & Heq & Htr & Hsent & _
        & Hto & Hnotes).
  rewrite Heq. simpl. rewrite (new_events_app st st' inc Htr), Hsent.
  apply Forall_app. split.
  - eapply Forall_impl; [done|]. intros m (r & Hr & ->). simpl.
    split; [done|]. left.
    destruct (matchRule config (mailSubject mail)) as [rule|]; simpl in Hr.
    + by exists rule.
    + by apply elem_of_nil in Hr.
  - destruct Hnotes as [->|(replyTo & data & Hto' & ->)]; [constructor|].
    apply Forall_cons. split; [|constructor]. simpl. split; [done | by right].
Qed.

(** X6. A run of [processEmail] makes at most
    [recipients * maxAttempts + 1] transport sends, where [recipients] is
    the number of recipients of the matched rule (none when no rule
    matches) and [maxAttempts] counts as 0 when negative. *)
Theorem send_count_bound (mail : ParsedMail) (st : State) :
  (length (sent (new_events st (run_processEmail mail st).2))
   ≤ length (recipients_of mail) * Z.to_nat (maxAttempts config) + 1)%nat.
Proof.
  destruct (processEmail_sends mail st)
    as (outcome & st' & inc & deliveries & notes & Heq & Htr & Hsent & Hlen
        & _ & Hnotes).
  rewrite Heq. simpl. rewrite (new_events_app st st' inc Htr), Hsent.
  rewrite length_app.
  destruct Hnotes as [->|(replyTo & data & _ & ->)]; simpl; lia.
Qed.

Lemma list_to_set_one (id : string) :
  list_to_set [id] =@{gset string} {[id]}.
Proof. simpl. apply (right_id_L ∅ (∪)). Qed.

Lemma marked_app (path : string) (l1 l2 : list Obs) :
  marked path (l1 ++ l2) = (marked path l1 ++ marked path l2)%list.
Proof. apply omap_app. Qed.

Lemma marked_skip (path : string) (o : Obs) (l : list Obs) :
  ¬ is_mark path o → marked path (o :: l) = marked path l.
Proof.
  destruct o as [| | | | | |p data]; try done. simpl. intros Hp.
  unfold marked. simpl. by rewrite bool_decide_false.
Qed.

Lemma marked_hit (path data : string) (l : list Obs) :
  marked path (OAppend path data :: l) = data :: marked path l.
Proof. unfold marked. simpl. by rewrite bool_decide_true. Qed.

Lemma marked_none (path : string) (l : list Obs) :
  Forall (λ o, ¬ is_mark path o) l → marked path l = [].
Proof.
  induction 1 as [|o l Ho _ IH]; [done|]. by rewrite marked_skip.
Qed.

Lemma quiet_marked (l : list Obs) :
  Forall quiet l → marked (FORWARDED_FILE DATA_DIR) l = [].
Proof. intros H. by apply marked_none, quiet_no_marks. Qed.

(** What one run does to the globals and to the id file. *)
Lemma processEmail_marks (mail : ParsedMail) (st : State) :
  ∃ outcome st' inc ids,
    run_processEmail mail st = (outcome, st')
    ∧ trace st' = (trace st ++ inc)%list
    ∧ marked (FORWARDED_FILE DATA_DIR) inc = id_line <$> ids
    ∧ forwardedIds st' = list_to_set ids ∪ forwardedIds st
    ∧ taskId st ≤ taskId st' ≤ taskId st + 1
    ∧ (∀ id, JS.truthy (declaredId mail) = Some id → id ∈ forwardedIds st').
Proof.
  destruct (run_cases mail st)
    as [Hdup|[[Hdup Hwhy]|(rule & Hdup & Hallowed & Hmatch)]].
  - destruct (processEmail_skip config DATA_DIR getReplySubject getReplyText
                getReplyHtml world mail st Hdup) as (inc & Heq & Hinc).
    eexists _, _, inc, []. split; [exact Heq|]. simpl.
    split; [done|]. split; [by apply quiet_marked|].
    split; [by rewrite (left_id_L ∅ (∪))|]. split; [lia|].
    intros id Hid. unfold isAlreadyForwarded in Hdup. rewrite Hid in Hdup.
    by apply bool_decide_eq_true in Hdup.
  - destruct (processEmail_drop config DATA_DIR getReplySubject getReplyText
                getReplyHtml world mail st Hdup Hwhy)
      as (t0 & messageId & idinc & q0 & q1 & Heq & Hid & Hq0 & Hq1).
    eexists _, _, _, [messageId]. split; [exact Heq|].
    cbn [trace forwardedIds taskId]. split; [reflexivity|].
    pose proof (identifies_quiet DATA_DIR mail messageId idinc Hid) as Hidq.
    split.
    { rewrite marked_skip by (by intros []).
      rewrite !marked_app, (quiet_marked idinc Hidq), (quiet_marked q0 Hq0).
      cbn [app]. by rewrite marked_hit, (quiet_marked q1 Hq1). }
    split; [by rewrite list_to_set_one|]. split; [lia|].
    intros id Hdecl. destruct Hid as [[Hd _]|[Hd _]]; [|congruence].
    rewrite Hdecl in Hd. injection Hd as ->.
    by apply elem_of_union_l, elem_of_singleton.
  - destruct (processEmail_forward config DATA_DIR getReplySubject getReplyText
                getReplyHtml world mail st rule Hdup Hallowed Hmatch)
      as (t0 & messageId & idinc & q0 & created & runs & q1 & d & t1 & q2 & q3
          & outcome & note & H).
    cbn zeta in H.
    destruct H as (Hid & Hq0 & Hq1 & Hq2 & Hq3 & Hd & Hruns & Hfwd & Hnote & Heq).
    pose proof (identifies_quiet DATA_DIR mail messageId idinc Hid) as Hidq.
    pose proof (notification_step_no_marks config DATA_DIR getReplySubject
                  getReplyText getReplyHtml mail _ _ _ _ Hnote) as Hn.
    pose proof (delivery_no_marks DATA_DIR d Hd) as Hdm.
    eexists outcome, _, _, [messageId]. split; [exact Heq|]. cbn [trace].
    split; [by assoc_r|].
    split.
    { repeat first [rewrite marked_app | rewrite marked_hit
                   | rewrite marked_skip by (by intros [])].
      rewrite (quiet_marked idinc Hidq), (quiet_marked q0 Hq0),
        (quiet_marked q1 Hq1), (quiet_marked q2 Hq2), (quiet_marked q3 Hq3),
        (marked_none _ d Hdm), (marked_none _ note Hn). done. }
    cbn [forwardedIds taskId]. split; [by rewrite list_to_set_one|].
    split; [lia|].
    intros id Hdecl. destruct Hid as [[Hd' _]|[Hd' _]]; [|congruence].
    rewrite Hdecl in Hd'. injection Hd' as ->.
    by apply elem_of_union_l, elem_of_singleton.
Qed.

Local Notation "'run_processAll'" :=
  (processAll config DATA_DIR getReplySubject getReplyText getReplyHtml world).

(** The same over a sequence of messages. *)
Lemma processAll_marks (mails : list ParsedMail) (st : State) :
  ∃ inc ids,
    trace (run_processAll mails st) = (trace st ++ inc)%list
    ∧ marked (FORWARDED_FILE DATA_DIR) inc = id_line <$> ids
    ∧ forwardedIds (run_processAll mails st)
      = list_to_set ids ∪ forwardedIds st
    ∧ taskId st ≤ taskId (run_processAll mails st)
      ≤ taskId st + Z.of_nat (length mails).
Proof.
  revert st. induction mails as [|mail mails IH]; intros st.
  - exists [], []. simpl. rewrite app_nil_r, (left_id_L ∅ (∪)).
    repeat split; lia.
  - destruct (processEmail_marks mail st)
      as (outcome & st1 & inc1 & ids1 & Heq & Htr1 & Hm1 & Hids1 & Hn1 & _).
    destruct (IH st1) as (inc2 & ids2 & Htr2 & Hm2 & Hids2 & Hn2).
    cbn [processAll]. rewrite Heq. cbn [snd].
    exists (inc1 ++ inc2)%list, (ids1 ++ ids2)%list.
    rewrite Htr2, Htr1, Hids2, Hids1, marked_app, Hm1, Hm2, fmap_app,
      list_to_set_app_L, app_assoc.
    repeat split; [|lia | cbn [length]; lia].
    by rewrite (assoc_L (∪)), (comm_L (∪) (list_to_set ids2)).
Qed.

(** X7. A message that declares an identifier is handled once.  After it has
    gone through [processEmail] (whether that run forwarded it, dropped it,
    skipped it or threw), and after any further messages, a later arrival of
    it is skipped whatever the environment does: the run returns normally,
    makes no transport send, writes nothing to the id file and leaves the
    dedup set, the task list and the task counter as they were. *)
Theorem redelivery_is_skipped (later : Oracle) (mail : ParsedMail)
    (id : string) (others : list ParsedMail) (st : State) :
  JS.truthy (declaredId mail) = Some id →
  let st1 := run_processAll (mail :: others) st in
  ∃ inc,
    processEmail config DATA_DIR getReplySubject getReplyText getReplyHtml
      later mail st1
    = (Ok tt, set_trace (trace st1 ++ inc)%list st1)
    ∧ Forall quiet inc
    ∧ sent inc = []
    ∧ marked (FORWARDED_FILE DATA_DIR) inc = [].
Proof.
  intros Hdecl st1.
  assert (id ∈ forwardedIds st1) as Hin.
  { subst st1. cbn [processAll].
    destruct (processEmail_marks mail st)
      as (outcome & st' & inc1 & ids1 & Heq & _ & _ & _ & _ & Hid).
    rewrite Heq. cbn [snd].
    destruct (processAll_marks others st') as (inc2 & ids2 & _ & _ & -> & _).
    by apply elem_of_union_r, Hid. }
  assert (isAlreadyForwarded (forwardedIds st1) mail = true) as Hdup.
  { unfold isAlreadyForwarded. rewrite Hdecl. by apply bool_decide_eq_true. }
  destruct (processEmail_skip config DATA_DIR getReplySubject getReplyText
              getReplyHtml later mail st1 Hdup) as (inc & Heq & Hinc).
  exists inc. split; [exact Heq|]. split; [done|].
  split; [by apply quiet_sent | by apply quiet_marked].
Qed.

(** X8. The in-memory dedup set and the id file move together, and nothing
    is ever taken back.  Over any sequence of messages, the appends to the
    id file are one line per identifier, each an identifier followed by a
    line feed, and the dedup set at the end is the set at the start plus
    exactly these identifiers; the history is only extended, and the task
    counter goes up by at most one per message. *)
Theorem dedup_set_mirrors_id_file (mails : list ParsedMail) (st : State) :
  let st' := run_processAll mails st in
  ∃ ids,
    marked (FORWARDED_FILE DATA_DIR) (new_events st st') = id_line <$> ids
    ∧ forwardedIds st' = list_to_set ids ∪ forwardedIds st
    ∧ forwardedIds st ⊆ forwardedIds st'
    ∧ trace st `prefix_of` trace st'
    ∧ taskId st ≤ taskId st' ≤ taskId st + Z.of_nat (length mails).
Proof.
  intros st'. subst st'.
  destruct (processAll_marks mails st) as (inc & ids & Htr & Hm & Hids & Hn).
  exists ids. rewrite (new_events_app _ _ inc Htr), Hids, Htr.
  repeat split; [done | apply union_subseteq_r | by exists inc | lia..].
Qed.

(** X9. A mail that names no sender address.  When a sender allow-list is
    configured (not empty, and without an empty entry), the mail is dropped:
    nothing is sent and no task is recorded.  In any case such a mail gets
    no notification (every send of its run is a forwarded copy) and its run
    cannot throw. *)
Theorem mail_without_sender_address (mail : ParsedMail) (st : State) :
  JS.truthy (firstAddress mail) = None →
  (∀ senders, allowedSenders config = Some senders → senders ≠ [] →
     EmptyString ∉ senders →
     sent (new_events st (run_processEmail mail st).2) = []
     ∧ tasks (run_processEmail mail st).2 = tasks st)
  ∧ Forall (λ m, ∃ r, m = forwardMessage config mail r)
      (sent (new_events st (run_processEmail mail st).2))
  ∧ (run_processEmail mail st).1 = Ok tt.
Proof.
  intros Hfrom.
  assert (mailFromAddr mail = EmptyString) as Haddr.
  { unfold mailFromAddr, JS.or_default. by rewrite Hfrom. }
  split.
  - intros senders Hsenders Hne Hempty.
    assert (isSenderAllowed config (mailFromAddr mail) = false) as Hno.
    { rewrite Haddr. unfold isSenderAllowed. rewrite Hsenders.
      destruct senders as [|s senders]; [done|].
      apply not_true_is_false. intros (s' & Hs' & Hinc)%existsb_exists.
      apply includes_in_empty, toLowerCase_empty in Hinc. subst s'.
      apply Hempty. by apply list_elem_of_In. }
    destruct (isAlreadyForwarded (forwardedIds st) mail) eqn:Hdup.
    + destruct (processEmail_skip config DATA_DIR getReplySubject getReplyText
                  getReplyHtml world mail st Hdup) as (inc & -> & Hinc).
      cbn [snd].
      rewrite (new_events_app st (set_trace (trace st ++ inc)%list st) inc
                 eq_refl).
      split; [by apply quiet_sent | done].
    + destruct (processEmail_drop config DATA_DIR getReplySubject getReplyText
                  getReplyHtml world mail st Hdup (or_introl Hno))
        as (t0 & messageId & idinc & q0 & q1 & -> & Hid & Hq0 & Hq1).
      cbn [snd]. erewrite new_events_app by reflexivity.
      split; [|done].
      pose proof (identifies_quiet DATA_DIR mail messageId idinc Hid) as Hidq.
      repeat first [rewrite sent_app | rewrite sent_skip by exact I].
      by rewrite (quiet_sent idinc Hidq), (quiet_sent q0 Hq0),
        (quiet_sent q1 Hq1).
  - destruct (processEmail_sends mail st)
      as (outcome & st' & inc & deliveries & notes & Heq & Htr & Hsent & _
          & Hto & Hnotes).
    destruct Hnotes as [->|(replyTo & data & Hto' & _)]; [|congruence].
    rewrite Heq. cbn [fst snd]. rewrite (new_events_app st st' inc Htr), Hsent.
    rewrite app_nil_r. split.
    + eapply Forall_impl; [done|]. intros m (r & _ & ->). by exists r.
    + destruct (run_cases mail st)
        as [Hdup|[[Hdup Hwhy]|(rule & Hdup & Hallowed & Hmatch)]].
      * destruct (processEmail_skip config DATA_DIR getReplySubject
                    getReplyText getReplyHtml world mail st Hdup)
          as (? & Heq' & _). congruence.
      * destruct (processEmail_drop config DATA_DIR getReplySubject
                    getReplyText getReplyHtml world mail st Hdup Hwhy)
          as (? & ? & ? & ? & ? & Heq' & _). congruence.
      * destruct (processEmail_forward config DATA_DIR getReplySubject
                    getReplyText getReplyHtml world mail st rule Hdup Hallowed
                    Hmatch)
          as (t0 & messageId & idinc & q0 & created & runs & q1 & d & t1 & q2
              & q3 & outcome' & note & H).
        cbn zeta in H. destruct H as (_ & _ & _ & _ & _ & _ & _ & _ & Hnote & Heq').
        unfold notification_step in Hnote. rewrite Hfrom in Hnote.
        destruct Hnote as [_ ->]. congruence.
Qed.

End MoreRuns.

(** ** Further properties: the id file *)

Lemma append_assoc_s (a b c : string) : (a +:+ b) +:+ c = a +:+ (b +:+ c).
Proof. induction a as [|x a IH]; [done|]. by rewrite !append_cons, IH. Qed.

Lemma append_empty_inv (a b : string) :
  a +:+ b = EmptyString → a = EmptyString.
Proof. by destruct a. Qed.

Lemma trimStart_length (s : string) :
  (String.length (JSText.trimStart s) ≤ String.length s)%nat.
Proof.
  induction s as [|c s IH]; simpl; [done|].
  destruct (JSText.isWhiteSpace c); simpl; lia.
Qed.

Lemma trimStart_fixed (c : ascii) (s : string) :
  JSText.trimStart (String c s) = String c s → JSText.isWhiteSpace c = false.
Proof.
  simpl. destruct (JSText.isWhiteSpace c); [|done]. intros H.
  pose proof (trimStart_length s) as Hlen. rewrite H in Hlen. simpl in Hlen.
  lia.
Qed.

Lemma trimEnd_append (s t : string) :
  JSText.trimEnd t ≠ EmptyString →
  JSText.trimEnd (s +:+ t) = s +:+ JSText.trimEnd t.
Proof.
  intros Ht. induction s as [|c s IH]; [done|].
  rewrite !append_cons. cbn [JSText.trimEnd]. rewrite IH.
  destruct (s +:+ JSText.trimEnd t) eqn:Heq; [|done].
  destruct s; [|done]. by rewrite append_nil in Heq.
Qed.

Lemma trimEnd_line (id : string) :
  id ≠ EmptyString → JSText.trimEnd id = id → JSText.trimEnd (id_line id) = id.
Proof.
  unfold id_line. induction id as [|c s IH]; [done|]. intros _ H.
  rewrite append_cons. cbn [JSText.trimEnd] in *.
  destruct s as [|d s].
  - simpl in *. by destruct (JSText.isWhiteSpace c).
  - destruct (JSText.trimEnd (String d s)) as [|e r] eqn:Hts.
    + by destruct (JSText.isWhiteSpace c).
    + injection H as -> ->. by rewrite IH.
Qed.

Lemma splitLines_line (a b : string) :
  JSText.splitLines a = [a] →
  JSText.splitLines (a +:+ String "010"%char b) = a :: JSText.splitLines b.
Proof.
  induction a as [|c a IH]; [done|]. rewrite append_cons.
  cbn [JSText.splitLines]. case_bool_decide; [done|].
  destruct (JSText.splitLines a) as [|piece pieces] eqn:Ha.
  { by destruct a; simpl in Ha; try case_bool_decide;
      try destruct (JSText.splitLines a). }
  intros [= -> ->]. by rewrite IH.
Qed.

Lemma id_lines_cons (id : string) (ids : list string) :
  id_lines (id :: ids) = id +:+ String "010"%char (id_lines ids).
Proof. reflexivity. Qed.

(** The text of an id file, trimmed and split, is its identifiers. *)
Lemma id_lines_trim (ids : list string) :
  Forall clean_id ids → ids ≠ [] →
  JSText.trimEnd (id_lines ids) ≠ EmptyString
  ∧ JSText.splitLines (JSText.trimEnd (id_lines ids)) = ids.
Proof.
  induction 1 as [|id rest (Hne & _ & Hend & Hsplit) Hrest IH]; [done|].
  intros _. destruct rest as [|id' rest].
  - change (id_lines [id]) with (id_line id).
    rewrite (trimEnd_line id Hne Hend). done.
  - destruct IH as [IHne IHsplit]; [done|]. rewrite id_lines_cons.
    assert (JSText.trimEnd (String "010"%char (id_lines (id' :: rest)))
            = String "010"%char (JSText.trimEnd (id_lines (id' :: rest))))
      as Hnl.
    { cbn [JSText.trimEnd].
      by destruct (JSText.trimEnd (id_lines (id' :: rest))). }
    rewrite trimEnd_append by (by rewrite Hnl). rewrite Hnl. split.
    + intros Heq. by apply append_empty_inv in Heq.
    + by rewrite (splitLines_line _ _ Hsplit), IHsplit.
Qed.

Lemma foldl_add_ids (ids : list string) (S : gset string) :
  foldl (λ ids id, {[id]} ∪ ids) S ids = list_to_set ids ∪ S.
Proof.
  revert S. induction ids as [|id ids IH]; intros S; simpl.
  - by rewrite (left_id_L ∅ (∪)).
  - by rewrite IH, (assoc_L (∪)), (comm_L (∪) (list_to_set ids)).
Qed.

(** Reading back an id file that holds clean identifiers. *)
Lemma loadForwardedIds_id_file (ids : list string) (S : gset string) :
  Forall clean_id ids →
  loadForwardedIds (id_file ids) S = list_to_set ids ∪ S.
Proof.
  intros Hclean. destruct ids as [|id rest].
  { simpl. by rewrite (left_id_L ∅ (∪)). }
  destruct (id_lines_trim (id :: rest) Hclean) as [Hne Hsplit]; [done|].
  unfold id_file, loadForwardedIds, JSText.trim.
  assert (JSText.trimStart (id_lines (id :: rest)) = id_lines (id :: rest))
    as ->.
  { apply Forall_cons in Hclean as [(Hid & Hstart & _) _].
    rewrite id_lines_cons. destruct id as [|c id]; [done|].
    apply trimStart_fixed in Hstart. rewrite append_cons. simpl.
    by rewrite Hstart. }
  cbn zeta.
  destruct (JSText.trimEnd (id_lines (id :: rest))) as [|c data] eqn:Hdata;
    [done|].
  by rewrite Hsplit, foldl_add_ids.
Qed.

Lemma id_line_inj (a b : string) : id_line a = id_line b → a = b.
Proof.
  unfold id_line. revert b. induction a as [|c a IH]; intros [|d b]; try done.
  - rewrite append_cons, append_nil. intros [= <- H]. by destruct b.
  - rewrite append_cons, append_nil. intros [= -> H]. by destruct a.
  - rewrite !append_cons. intros [= -> H]. by rewrite (IH b H).
Qed.

Lemma file_after_marked (path : string) (file : option string)
    (l : list Obs) :
  file_after path file l
  = foldl (λ f data, Some (default EmptyString f +:+ data)) file
      (marked path l).
Proof.
  revert file. induction l as [|o l IH]; intros file; [done|].
  destruct o as [| | | | | |p data]; try apply IH.
  unfold marked. simpl. case_bool_decide; simpl; apply IH.
Qed.

Lemma id_lines_snoc (ids : list string) (id : string) :
  id_lines (ids ++ [id]) = id_lines ids +:+ id_line id.
Proof.
  induction ids as [|x ids IH]; [done|].
  rewrite <- app_comm_cons, !id_lines_cons, IH.
  by rewrite append_assoc_s, append_cons.
Qed.

Lemma id_file_snoc (ids : list string) (id : string) :
  Some (default EmptyString (id_file ids) +:+ id_line id)
  = id_file (ids ++ [id]).
Proof.
  assert (default EmptyString (id_file ids) = id_lines ids) as ->
    by (by destruct ids).
  rewrite <- id_lines_snoc. by destruct ids.
Qed.

Lemma id_file_appends (ids0 ids : list string) :
  foldl (λ f data, Some (default EmptyString f +:+ data)) (id_file ids0)
    (id_line <$> ids)
  = id_file (ids0 ++ ids).
Proof.
  revert ids0. induction ids as [|id ids IH]; intros ids0.
  - by rewrite app_nil_r.
  - rewrite fmap_cons. cbn [foldl]. rewrite id_file_snoc, IH.
    by rewrite <- app_assoc.
Qed.

Section Restart.

Variable config : Config.
Variable DATA_DIR : string.
Variable getReplySubject getReplyText getReplyHtml : ReplyData → string.
Variable world : Oracle.

(** X10. Restart.  The process loads the id file, handles any sequence of
    messages and stops; when it starts again, [loadForwardedIds] reads back
    from the id file exactly the dedup set the process had in memory.  This
    holds as long as the identifiers in the file are clean: not empty, with
    no white space at either end and no line feed inside. *)
Theorem restart_recovers_dedup_set (mails : list ParsedMail)
    (ids0 : list string) :
  let st' :=
    processAll config DATA_DIR getReplySubject getReplyText getReplyHtml
      world mails (initial (loadForwardedIds (id_file ids0) ∅)) in
  Forall clean_id ids0 →
  Forall (λ line, ∃ id, line = id_line id ∧ clean_id id)
    (marked (FORWARDED_FILE DATA_DIR) (trace st')) →
  loadForwardedIds
    (file_after (FORWARDED_FILE DATA_DIR) (id_file ids0) (trace st')) ∅
  = forwardedIds st'.
Proof.
  intros st' Hclean0 Hclean. subst st'.
  destruct (processAll_marks config DATA_DIR getReplySubject getReplyText
              getReplyHtml world mails
              (initial (loadForwardedIds (id_file ids0) ∅)))
    as (inc & ids & Htr & Hm & Hids & _).
  rewrite Htr, Hids in *. cbn [initial trace forwardedIds app] in *.
  rewrite Hm in Hclean.
  assert (Forall clean_id ids) as Hclean1.
  { rewrite Forall_fmap in Hclean. eapply Forall_impl; [exact Hclean|].
    simpl. intros id (id' & Heq & Hid'). by rewrite (id_line_inj _ _ Heq). }
  rewrite file_after_marked, Hm, id_file_appends.
  rewrite !loadForwardedIds_id_file by (try apply Forall_app; done).
  by rewrite !(right_id_L ∅ (∪)), list_to_set_app_L,
    (comm_L (∪) (list_to_set ids0)).
Qed.

End Restart.

(** ** Further properties: the configuration file *)

Lemma startsWith_one (c x : ascii) (s : string) :
  JS.startsWith (String c s) (String x EmptyString) = bool_decide (c = x).
Proof.
  simpl. rewrite andb_true_r. apply bool_decide_ext. split; congruence.
Qed.

Lemma startsWith_two (c x y : ascii) (s : string) :
  JS.startsWith (String c s) (String x (String y EmptyString))
  = bool_decide (c = x) && JS.startsWith s (String y EmptyString).
Proof.
  cbn [JS.startsWith]. f_equal. apply bool_decide_ext. split; congruence.
Qed.

Lemma includes_cons (c : ascii) (s t : string) :
  JS.includes (String c s) t
  = JS.startsWith (String c s) t || JS.includes s t.
Proof. reflexivity. Qed.

Lemma includes_cons_false (c : ascii) (s t : string) :
  JS.includes (String c s) t = false →
  JS.startsWith (String c s) t = false ∧ JS.includes s t = false.
Proof. rewrite includes_cons. apply orb_false_elim. Qed.

(** The first pass leaves no two slashes in a row. *)
Lemma stripLine_no_slashes (s : string) :
  (JS.startsWith (Jsonc.stripLine true s) "/" = false
   ∧ JS.includes (Jsonc.stripLine true s) "//" = false)
  ∧ (JS.includes (Jsonc.stripLine false s) "//" = false
     ∧ (JS.startsWith (Jsonc.stripLine false s) "/" = true →
        JS.startsWith s "/" = true)).
Proof.
  induction s as [|c s [[IHt1 IHt2] [IHf1 IHf2]]]; [done|].
  cbn [Jsonc.stripLine]. split.
  - destruct (Jsonc.isLineTerminator c) eqn:Hc; [|split; assumption].
    rewrite includes_cons, startsWith_two, !startsWith_one, IHf1.
    unfold Jsonc.isLineTerminator in Hc.
    repeat case_bool_decide; subst; done.
  - destruct (bool_decide (c = "/"%char) && JS.startsWith s "/") eqn:Hc.
    + split; [done|]. by rewrite IHt1.
    + rewrite includes_cons, startsWith_two, !startsWith_one, IHf1.
      split; [|done]. rewrite orb_false_r.
      destruct (bool_decide (c = "/"%char)); [|done].
      rewrite andb_true_l in Hc |- *.
      destruct (JS.startsWith (Jsonc.stripLine false s) "/") eqn:Hout; [|done].
      by rewrite IHf2 in Hc.
Qed.

Lemma stripLine_unchanged (s : string) :
  JS.includes s "//" = false → Jsonc.stripLine false s = s.
Proof.
  induction s as [|c s IH]; [done|].
  intros [Hhere Hrest]%includes_cons_false. cbn [Jsonc.stripLine].
  rewrite startsWith_two in Hhere. rewrite Hhere. by rewrite IH.
Qed.

Lemma stripBlock_unchanged (s : string) :
  Jsonc.hasBlockComment s = false → Jsonc.stripBlock false s = s.
Proof.
  induction s as [|c s IH]; [done|]. cbn [Jsonc.hasBlockComment Jsonc.stripBlock].
  destruct s as [|d s]; [done|].
  intros [-> Hrest]%orb_false_elim. by rewrite IH.
Qed.

Lemma includes_tail_false (c : ascii) (s t : string) :
  JS.includes (String c s) t = false → JS.includes s t = false.
Proof. by intros [_ H]%includes_cons_false. Qed.

Lemma no_closing_no_block (s : string) :
  JS.includes s "*/" = false → Jsonc.hasBlockComment s = false.
Proof.
  induction s as [|c s IH]; [done|]. intros H.
  pose proof (includes_tail_false _ _ _ H) as Hs.
  cbn [Jsonc.hasBlockComment]. destruct s as [|d s]; [done|].
  rewrite (IH Hs), (includes_tail_false _ _ _ Hs). by rewrite andb_false_r.
Qed.

Lemma stripBlock_keeps (c : ascii) (s : string) :
  c ≠ "/"%char →
  Jsonc.stripBlock false (String c s) = String c (Jsonc.stripBlock false s).
Proof.
  intros Hc. cbn [Jsonc.stripBlock]. destruct s as [|d s]; [done|].
  by rewrite (bool_decide_false _ Hc).
Qed.

Lemma stripBlock_false_step (c d : ascii) (s : string) :
  Jsonc.stripBlock false (String c (String d s))
  = if bool_decide (c = "/"%char) && bool_decide (d = "*"%char)
       && JS.includes s "*/"
    then Jsonc.stripBlock true s
    else String c (Jsonc.stripBlock false (String d s)).
Proof. reflexivity. Qed.

Lemma stripBlock_true_step (c d : ascii) (s : string) :
  Jsonc.stripBlock true (String c (String d s))
  = if bool_decide (c = "*"%char) && bool_decide (d = "/"%char)
    then Jsonc.stripBlock false s
    else Jsonc.stripBlock true (String d s).
Proof. reflexivity. Qed.

Lemma hasBlockComment_step (c d : ascii) (s : string) :
  Jsonc.hasBlockComment (String c (String d s))
  = bool_decide (c = "/"%char) && bool_decide (d = "*"%char)
    && JS.includes s "*/"
    || Jsonc.hasBlockComment (String d s).
Proof. reflexivity. Qed.

(** The second pass, on a text without two slashes in a row: it leaves no
    block comment and brings no two slashes together. *)
Lemma stripBlock_no_comments (n : nat) (s : string) :
  (String.length s ≤ n)%nat →
  JS.includes s "//" = false →
  (JS.includes (Jsonc.stripBlock false s) "//" = false
   ∧ Jsonc.hasBlockComment (Jsonc.stripBlock false s) = false
   ∧ (JS.startsWith s "/" = false →
      ∀ x, JS.startsWith (Jsonc.stripBlock false s) (String x EmptyString)
           = JS.startsWith s (String x EmptyString)))
  ∧ (JS.includes (Jsonc.stripBlock true s) "//" = false
     ∧ Jsonc.hasBlockComment (Jsonc.stripBlock true s) = false
     ∧ JS.startsWith (Jsonc.stripBlock true s) "/" = false).
Proof.
  revert s. induction n as [|n IH]; intros s Hlen Hs.
  { by destruct s; [|simpl in Hlen; lia]. }
  destruct s as [|c s]; [done|]. destruct s as [|d s].
  { split; [|done]. cbn [Jsonc.stripBlock]. done. }
  simpl in Hlen.
  apply includes_cons_false in Hs as [Hcd Hs].
  pose proof (includes_tail_false _ _ _ Hs) as Hs'.
  destruct (IH (String d s)) as [(A1 & A2 & A3) (B1 & B2 & B3)];
    [simpl; lia | done |].
  destruct (IH s) as [(A1' & A2' & A3') (B1' & B2' & B3')]; [lia | done |].
  rewrite startsWith_two, startsWith_one in Hcd.
  split.
  - rewrite stripBlock_false_step.
    destruct (bool_decide (c = "/"%char) && bool_decide (d = "*"%char)
              && JS.includes s "*/") eqn:Hstart.
    { split; [done|]. split; [done|]. rewrite startsWith_one.
      by destruct (bool_decide (c = "/"%char)). }
    assert (bool_decide (c = "/"%char) = true →
            bool_decide (d = "/"%char) = false) as Hd.
    { intros Hc. by rewrite Hc in Hcd. }
    split; [|split].
    + rewrite includes_cons, startsWith_two, A1, orb_false_r.
      destruct (bool_decide (c = "/"%char)) eqn:Hc; [|done].
      rewrite andb_true_l.
      rewrite A3, startsWith_one by (by rewrite startsWith_one, Hd).
      by apply Hd.
    + destruct (Jsonc.stripBlock false (String d s)) as [|e r] eqn:Hout;
        [done|].
      rewrite hasBlockComment_step, A2, orb_false_r.
      destruct (bool_decide (c = "/"%char)) eqn:Hc; [|done].
      rewrite andb_true_l. specialize (Hd eq_refl).
      specialize (A3 ltac:(by rewrite startsWith_one) "*"%char).
      rewrite !startsWith_one in A3. rewrite A3.
      destruct (bool_decide (d = "*"%char)) eqn:Hstar; [|done].
      rewrite andb_true_l. rewrite !andb_true_l in Hstart.
      apply bool_decide_eq_true in Hstar as ->.
      rewrite stripBlock_keeps in Hout by done. injection Hout as _ <-.
      by rewrite (stripBlock_unchanged s (no_closing_no_block s Hstart)).
    + intros _ x. by rewrite !startsWith_one.
  - rewrite stripBlock_true_step.
    destruct (bool_decide (c = "*"%char) && bool_decide (d = "/"%char))
      eqn:Hend; [|done].
    split; [done|]. split; [done|].
    apply andb_true_iff in Hend as [_ Hd%bool_decide_eq_true]. subst d.
    destruct s as [|e s]; [done|].
    apply includes_cons_false in Hs as [Hde _].
    rewrite startsWith_two, startsWith_one in Hde.
    rewrite bool_decide_true, andb_true_l in Hde by done.
    rewrite A3', startsWith_one by (by rewrite startsWith_one). done.
Qed.

(** X11. [parseJsonc] hands [JSON.parse] a text without comments: what is
    left after the two replacements holds no two slashes in a row and no
    block comment, so stripping again changes nothing.  A text is handed
    over unchanged exactly when it holds no two slashes in a row and no
    block comment to begin with; so two slashes inside a string value of the
    configuration (a URL, say) are cut like a comment. *)
Theorem parseJsonc_strips_all_comments (content : string) :
  JS.includes (Jsonc.stripped content) "//" = false
  ∧ Jsonc.hasBlockComment (Jsonc.stripped content) = false
  ∧ (Jsonc.stripped content = content
     ↔ JS.includes content "//" = false
       ∧ Jsonc.hasBlockComment content = false)
  ∧ (∀ A (JSON_parse : string → Res A),
       Jsonc.parseJsonc JSON_parse (Jsonc.stripped content)
       = Jsonc.parseJsonc JSON_parse content).
Proof.
  destruct (stripLine_no_slashes content) as [_ [Hline _]].
  destruct (stripBlock_no_comments _ (Jsonc.stripLine false content)
              (le_n _) Hline) as [(Hslash & Hblock & _) _].
  assert (∀ s, JS.includes s "//" = false → Jsonc.hasBlockComment s = false →
            Jsonc.stripped s = s) as Hsame.
  { intros s H1 H2. unfold Jsonc.stripped.
    by rewrite (stripLine_unchanged s H1), (stripBlock_unchanged s H2). }
  split; [done|]. split; [done|]. split.
  - split; [|by intros [? ?]; apply Hsame].
    intros Heq. unfold Jsonc.stripped in *. by rewrite Heq in Hslash, Hblock.
  - intros A JSON_parse. unfold Jsonc.parseJsonc. by rewrite Hsame.
Qed.

(** ** Further properties: a retry count that allows no attempt *)

Section NoAttempts.

Variable config : Config.
Variable DATA_DIR : string.
Variable getReplySubject getReplyText getReplyHtml : ReplyData → string.
Variable world : Oracle.

Local Notation "'run_processEmail'" :=
  (processEmail config DATA_DIR getReplySubject getReplyText getReplyHtml world).

(** X12. A retry count of 0 (or below) turns forwarding off without saying
    so.  [sendToRecipient] then makes no transport attempt and starts no
    timer, and reports a failure with an empty error message; a run of
    [processEmail] sends nothing but, at most, the notification to the
    sender; and a message that was not a duplicate is still marked as
    processed, so that it will not be tried again. *)
Theorem nothing_forwarded_without_attempts (mail : ParsedMail) (st : State) :
  maxAttempts config ≤ 0 →
  (∀ recipient from l result,
     exec (sendToRecipient config DATA_DIR mail recipient from) l result →
     sent l = [] ∧ waits l = []
     ∧ result = mkResult recipient false (Some EmptyString)
                  (maxAttempts config))
  ∧ (sent (new_events st (run_processEmail mail st).2) = []
     ∨ ∃ replyTo data,
         JS.truthy (firstAddress mail) = Some replyTo
         ∧ sent (new_events st (run_processEmail mail st).2)
           = [notificationMessage config getReplySubject getReplyText
                getReplyHtml replyTo data])
  ∧ (isAlreadyForwarded (forwardedIds st) mail = false →
     ∃ id, forwardedIds (run_processEmail mail st).2
           = {[id]} ∪ forwardedIds st).
Proof.
  intros Hmax. split; [|split].
  - intros recipient from l result. unfold sendToRecipient.
    replace (Z.to_nat (maxAttempts config)) with 0%nat by lia.
    cbn [sendLoop]. by intros (ts & l' & -> & -> & ->)%exec_log_then.
  - destruct (processEmail_sends config DATA_DIR getReplySubject getReplyText
                getReplyHtml world mail st)
      as (outcome & st' & inc & deliveries & notes & Heq & Htr & Hsent & Hlen
          & _ & Hnotes).
    rewrite Heq. cbn [snd]. rewrite (new_events_app st st' inc Htr), Hsent.
    replace (Z.to_nat (maxAttempts config)) with 0%nat in Hlen by lia.
    rewrite Nat.mul_0_r in Hlen. destruct deliveries; [|simpl in Hlen; lia].
    destruct Hnotes as [->|(replyTo & data & Hto & ->)]; [by left|].
    right. by exists replyTo, data.
  - intros Hdup.
    destruct (processEmail_fresh config DATA_DIR getReplySubject getReplyText
                getReplyHtml world mail st Hdup)
      as (outcome & st' & t0 & messageId & idinc & rest & Heq & _ & _ & _
          & Hids).
    rewrite Heq. by exists messageId.
Qed.

End NoAttempts.

(** ** The further properties on the concrete deployment *)

Local Ltac exec_steps :=
  vm_compute;
  repeat (eexists; eexists; split; [reflexivity|]; cbn);
  by split.

Local Ltac clean :=
  repeat split; [done | vm_compute; reflexivity..].

Lemma backoff_is_linear_witness :
  0 ≤ maxAttempts Ex.config
  ∧ exec Cases.b_thread Cases.b_history Cases.b_result
  ∧ waits Cases.b_history
    = (λ k, 1000 * k)
        <$> seqZ 1
              (Z.min
                 (Z.of_nat
                    (length (filter is_Some (send_outcomes Cases.b_history))))
                 (maxAttempts Ex.config - 1))
  ∧ (success Cases.b_result = false → 1 ≤ maxAttempts Ex.config →
     waits Cases.b_history
     = (λ k, 1000 * k) <$> seqZ 1 (maxAttempts Ex.config - 1)
     ∧ foldr Z.add 0 (waits Cases.b_history)
       = 500 * maxAttempts Ex.config * (maxAttempts Ex.config - 1)).
Proof.
  assert (0 ≤ maxAttempts Ex.config) as H1
    by (unfold maxAttempts; simpl; lia).
  assert (exec Cases.b_thread Cases.b_history Cases.b_result) as H2
    by exec_steps.
  split; [exact H1|]. split; [exact H2|].
  exact (backoff_is_linear Ex.config "." Ex.mail "b@x.com" "alice@example.com"
           Cases.b_history Cases.b_result H1 H2).
Defined.

Lemma result_depends_on_own_attempts_witness :
  exec Cases.b_thread Cases.b_history Cases.b_result
  ∧ exec Cases.b_thread Cases.b_history_later Cases.b_result_later
  ∧ send_outcomes Cases.b_history = send_outcomes Cases.b_history_later
  ∧ Cases.b_history ≠ Cases.b_history_later
  ∧ Cases.b_result = Cases.b_result_later.
Proof.
  assert (exec Cases.b_thread Cases.b_history Cases.b_result) as H1
    by exec_steps.
  assert (exec Cases.b_thread Cases.b_history_later Cases.b_result_later)
    as H2 by exec_steps.
  assert (send_outcomes Cases.b_history = send_outcomes Cases.b_history_later)
    as H3 by (vm_compute; reflexivity).
  split; [exact H1|]. split; [exact H2|]. split; [exact H3|].
  split; [by vm_compute|].
  exact (result_depends_on_own_attempts Ex.config "." Ex.mail "b@x.com"
           "alice@example.com" Cases.b_history Cases.b_history_later
           Cases.b_result Cases.b_result_later H1 H2 H3).
Defined.

Lemma redelivery_is_skipped_witness :
  JS.truthy (declaredId Ex.mail) = Some "<m1@example.com>"
  ∧ (∃ inc,
       processEmail Ex.config "." Ex.template Ex.template Ex.template
         Ex.sender_down Ex.mail Cases.after_two
       = (Ok tt,
          set_trace (trace Cases.after_two ++ inc)%list Cases.after_two)
       ∧ Forall (is_quiet (LOG_FILE ".")) inc
       ∧ sent inc = []
       ∧ marked (FORWARDED_FILE ".") inc = []).
Proof.
  assert (JS.truthy (declaredId Ex.mail) = Some "<m1@example.com>") as H1
    by (vm_compute; reflexivity).
  split; [exact H1|].
  exact (redelivery_is_skipped Ex.config "." Ex.template Ex.template
           Ex.template Ex.all_up Ex.sender_down Ex.mail "<m1@example.com>"
           [Ex.stranger_mail] Ex.fresh H1).
Defined.

Lemma mail_without_sender_address_witness :
  JS.truthy (firstAddress Cases.no_sender_mail) = None
  ∧ (∀ senders, allowedSenders Ex.config = Some senders → senders ≠ [] →
       EmptyString ∉ senders →
       sent (new_events Ex.fresh
               (Ex.run Ex.all_up Cases.no_sender_mail Ex.fresh).2) = []
       ∧ tasks (Ex.run Ex.all_up Cases.no_sender_mail Ex.fresh).2
         = tasks Ex.fresh)
  ∧ Forall (λ m, ∃ r, m = forwardMessage Ex.config Cases.no_sender_mail r)
      (sent (new_events Ex.fresh
               (Ex.run Ex.all_up Cases.no_sender_mail Ex.fresh).2))
  ∧ (Ex.run Ex.all_up Cases.no_sender_mail Ex.fresh).1 = Ok tt.
Proof.
  assert (JS.truthy (firstAddress Cases.no_sender_mail) = None) as H1
    by (vm_compute; reflexivity).
  split; [exact H1|].
  exact (mail_without_sender_address Ex.config "." Ex.template Ex.template
           Ex.template Ex.all_up Cases.no_sender_mail Ex.fresh H1).
Defined.

Lemma restart_recovers_dedup_set_witness :
  Forall clean_id ["<m0@example.com>"]
  ∧ Forall (λ line, ∃ id, line = id_line id ∧ clean_id id)
      (marked (FORWARDED_FILE ".") (trace Cases.after_three))
  ∧ loadForwardedIds
      (file_after (FORWARDED_FILE ".") (id_file ["<m0@example.com>"])
         (trace Cases.after_three)) ∅
    = forwardedIds Cases.after_three.
Proof.
  assert (Forall clean_id ["<m0@example.com>"]) as H1
    by (repeat constructor; vm_compute; done).
  assert (Forall (λ line, ∃ id, line = id_line id ∧ clean_id id)
            (marked (FORWARDED_FILE ".") (trace Cases.after_three))) as H2.
  { replace (marked (FORWARDED_FILE ".") (trace Cases.after_three))
      with (id_line <$> ["<m1@example.com>"; "1700000000027-0.25";
                         "<m2@elsewhere.org>"])
      by (vm_compute; reflexivity).
    repeat (apply Forall_cons; split;
            [eexists; split; [reflexivity|];
             repeat split; [done | vm_compute; reflexivity..]|]).
    apply Forall_nil_2. }
  split; [exact H1|]. split; [exact H2|].
  exact (restart_recovers_dedup_set Ex.config "." Ex.template Ex.template
           Ex.template Ex.all_up
           [Ex.mail; Ex.anonymous_mail; Ex.stranger_mail]
           ["<m0@example.com>"] H1 H2).
Defined.

Lemma nothing_forwarded_without_attempts_witness :
  maxAttempts Cases.no_retry_config ≤ 0
  ∧ (∀ recipient from l result,
       exec (sendToRecipient Cases.no_retry_config "." Ex.mail recipient from)
         l result →
       sent l = [] ∧ waits l = []
       ∧ result = mkResult recipient false (Some EmptyString)
                    (maxAttempts Cases.no_retry_config))
  ∧ (sent (new_events Ex.fresh
             (processEmail Cases.no_retry_config "." Ex.template Ex.template
                Ex.template Ex.all_up Ex.mail Ex.fresh).2) = []
     ∨ ∃ replyTo data,
         JS.truthy (firstAddress Ex.mail) = Some replyTo
         ∧ sent (new_events Ex.fresh
                   (processEmail Cases.no_retry_config "." Ex.template
                      Ex.template Ex.template Ex.all_up Ex.mail Ex.fresh).2)
           = [notificationMessage Cases.no_retry_config Ex.template
                Ex.template Ex.template replyTo data])
  ∧ (isAlreadyForwarded (forwardedIds Ex.fresh) Ex.mail = false →
     ∃ id, forwardedIds
             (processEmail Cases.no_retry_config "." Ex.template Ex.template
                Ex.template Ex.all_up Ex.mail Ex.fresh).2
           = {[id]} ∪ forwardedIds Ex.fresh).
Proof.
  assert (maxAttempts Cases.no_retry_config ≤ 0) as H1
    by (unfold maxAttempts; simpl; lia).
  split; [exact H1|].
  exact (nothing_forwarded_without_attempts Cases.no_retry_config "."
           Ex.template Ex.template Ex.template Ex.all_up Ex.mail Ex.fresh H1).
Defined.
